(** * pgsqltoolsservice: the JSON-RPC server of [server.py]

    A shallow embedding of [pgsqltoolsservice/server.py]: the frame codec
    ([handle_output], [read_headers], [read_content]), the process-wide
    dispatch table, the lifecycle flags, the thread registry and the server
    loop [handle_input], followed by the properties of the specification
    that concern them. *)

From Stdlib Require Import Ascii String ZArith Decimal DecimalNat Lia.
From stdpp Require Import gmap list strings functions.
From Equations Require Import Equations.

Local Open Scope Z_scope.
Set Warnings "-register-all".

(** ** Text

    A Python [str] is modelled as the list of its characters, that is of its
    code points, and [len] is the number of characters. The model keeps the
    characters below U+0100, each held in an [ascii]; the text streams carry
    characters, not bytes. *)

Module Text.

Definition str : Type := list ascii.

(** String literals of the source. *)
Definition lit (s : string) : str := list_ascii_of_string s.

Definition LF : ascii := ascii_of_nat 10.
Definition CR : ascii := ascii_of_nat 13.

(** [str.isspace] on one character: TAB..CR, FS..US and the blank, NEL and
    the no-break space. *)
Definition isspace (c : ascii) : bool :=
  let n := nat_of_ascii c in
  ((9 <=? n)%nat && (n <=? 13)%nat) || ((28 <=? n)%nat && (n <=? 32)%nat)
  || (n =? 133)%nat || (n =? 160)%nat.

(** White space as [int] skips it around a numeral: TAB..CR and the blank,
    and the white space beyond ASCII, NEL and the no-break space. FS..US are
    white space for [strip] and not for [int]. *)
Definition int_space (c : ascii) : bool :=
  let n := nat_of_ascii c in
  ((9 <=? n)%nat && (n <=? 13)%nat) || (n =? 32)%nat
  || (n =? 133)%nat || (n =? 160)%nat.

(** Stripping the characters that [space] holds of, from the left, from the
    right, from both ends. *)
Fixpoint lstrip_by (space : ascii -> bool) (s : str) : str :=
  match s with
  | [] => []
  | c :: rest => if space c then lstrip_by space rest else s
  end.

Definition rstrip_by (space : ascii -> bool) (s : str) : str :=
  rev (lstrip_by space (rev s)).

Definition strip_by (space : ascii -> bool) (s : str) : str :=
  rstrip_by space (lstrip_by space s).

Definition lstrip : str -> str := lstrip_by isspace.
Definition rstrip : str -> str := rstrip_by isspace.

(** [s.strip()] *)
Definition strip : str -> str := strip_by isspace.

Definition cons_first (c : ascii) (ps : list str) : list str :=
  match ps with
  | p :: ps' => (c :: p) :: ps'
  | [] => [[c]]
  end.

(** [s.split(sep)] for a separator [sep] of the two characters [a], [b]:
    every occurrence, scanning from the left, cuts the string. *)
Fixpoint split2 (a b : ascii) (s : str) : list str :=
  match s with
  | [] => [[]]
  | c :: rest =>
      match rest with
      | d :: rest' =>
          if Ascii.eqb c a && Ascii.eqb d b then [] :: split2 a b rest'
          else cons_first c (split2 a b rest)
      | [] => [[c]]
      end
  end.

(** [line.split(': ')] *)
Definition split_colon_space : str -> list str := split2 ":" " ".

(** [sep in s] for the two-character separator. *)
Fixpoint contains2 (a b : ascii) (s : str) : bool :=
  match s with
  | c :: rest =>
      match rest with
      | d :: _ => (Ascii.eqb c a && Ascii.eqb d b) || contains2 a b rest
      | [] => false
      end
  | [] => false
  end.

(** *** Decimal numerals *)

Definition is_digit (c : ascii) : bool :=
  let n := nat_of_ascii c in (48 <=? n)%nat && (n <=? 57)%nat.

Definition digit_value (c : ascii) : Z := Z.of_nat (nat_of_ascii c) - 48.

(** The digits of a numeral, with the grouping underscores [int] accepts
    between two digits. [seen] tells that the previous character was a
    digit. *)
Fixpoint parse_digits (acc : Z) (seen : bool) (s : str) : option Z :=
  match s with
  | [] => if seen then Some acc else None
  | c :: rest =>
      if is_digit c then parse_digits (10 * acc + digit_value c) true rest
      else if Ascii.eqb c "_" && seen then parse_digits acc false rest
      else None
  end.

(** [sys.int_info.default_max_str_digits]: the most digits [int] converts. *)
Definition max_str_digits : nat := 4300.

Fixpoint count_digits (s : str) : nat :=
  match s with
  | [] => 0
  | c :: rest => (if is_digit c then 1 else 0) + count_digits rest
  end%nat.

(** [int(s)]: surrounding white space, an optional sign, decimal digits,
    of which there are at most [max_str_digits], leading zeros counted.
    [None] stands for [ValueError]. *)
Definition int (s : str) : option Z :=
  let numeral := strip_by int_space s in
  if (max_str_digits <? count_digits numeral)%nat then None
  else
    match numeral with
    | [] => None
    | c :: ds =>
        if Ascii.eqb c "+" then parse_digits 0 false ds
        else if Ascii.eqb c "-" then Z.opp <$> parse_digits 0 false ds
        else parse_digits 0 false (c :: ds)
    end.

Fixpoint chars_of_uint (d : uint) : str :=
  match d with
  | Nil => []
  | D0 d => "0"%char :: chars_of_uint d
  | D1 d => "1"%char :: chars_of_uint d
  | D2 d => "2"%char :: chars_of_uint d
  | D3 d => "3"%char :: chars_of_uint d
  | D4 d => "4"%char :: chars_of_uint d
  | D5 d => "5"%char :: chars_of_uint d
  | D6 d => "6"%char :: chars_of_uint d
  | D7 d => "7"%char :: chars_of_uint d
  | D8 d => "8"%char :: chars_of_uint d
  | D9 d => "9"%char :: chars_of_uint d
  end.

(** ['{}'.format(n)] for the natural number [n = len(...)]. *)
Definition format_nat (n : nat) : str := chars_of_uint (Nat.to_uint n).


(** *** Text streams

    An input stream is the text not yet read; nothing is translated. *)

(** [stream.readline()]: up to and including the first line feed, or what is
    left when there is none; the empty string at the end of the stream. *)
Fixpoint readline (stream : str) : str * str :=
  match stream with
  | [] => ([], [])
  | c :: rest =>
      if Ascii.eqb c LF then ([c], rest)
      else let '(l, r) := readline rest in (c :: l, r)
  end.

(** [sys.maxsize], the largest C [ssize_t], of a 64-bit interpreter. *)
Definition maxsize : Z := 2 ^ 63 - 1.

(** [stream.read(n)]: at most [n] characters; all of them when [n] is
    negative. The size is first taken as a C [ssize_t]: [None] stands for
    the [OverflowError] of a size that does not fit, and then nothing is
    read. *)
Definition read (n : Z) (stream : str) : option (str * str) :=
  if (n <? - maxsize - 1) || (maxsize <? n) then None
  else if n <? 0 then Some (stream, [])
  else Some (take (Z.to_nat n) stream, drop (Z.to_nat n) stream).

(** The length in bytes of the UTF-8 encoding: one byte for a character
    below U+0080, two for the others the model keeps. *)
Fixpoint utf8_length (s : str) : nat :=
  match s with
  | [] => 0
  | c :: rest => (if (nat_of_ascii c <? 128)%nat then 1 else 2) + utf8_length rest
  end%nat.

End Text.

Import Text.

(** ** Exceptions *)

Inductive exn : Type :=
| IndexError
| KeyError (key : str)
| ValueError
| TypeError
| OverflowError.

Inductive result (A : Type) : Type :=
| Ok (a : A)
| Raise (e : exn).
Arguments Ok {A} a.
Arguments Raise {A} e.

(** ** Frame decoder *)

(** A value together with the equation that it is what was computed. *)
Definition inspect {A : Type} (a : A) : {b : A | a = b} := exist _ a eq_refl.

(** The loop of [read_headers], started with the dictionary [headers]:
    a line that is empty once stripped ends the block; any other line is
    split, [parts[0]] names the entry and [parts[1]] is its value. What is
    left of the stream is returned with the outcome. *)
Equations? read_headers_from (headers : gmap str str) (stream : str)
  : result (gmap str str) * str by wf (length stream) lt :=
  read_headers_from headers stream with inspect (readline stream) := {
    | exist _ (raw, rest) Hread with inspect (strip raw) := {
      | exist _ [] _ := (Ok headers, rest)
      | exist _ (c :: line) Hline with split_colon_space (c :: line) := {
        | name :: value :: _ := read_headers_from (<[name := value]> headers) rest
        | _ := (Raise IndexError, rest) } } }.
Proof.
  assert (forall s x y, readline s = (x, y) -> (length x + length y = length s)%nat) as Hlen.
  { induction s as [|a s IH]; intros x y; simpl.
    - intros [= <- <-]. reflexivity.
    - destruct (Ascii.eqb a LF); [intros [= <- <-]; reflexivity |].
      destruct (readline s) as [x' y']. intros [= <- <-].
      simpl. rewrite (IH x' y' eq_refl). reflexivity. }
  apply Hlen in Hread.
  destruct raw; [discriminate Hline | simpl in Hread; lia].
Qed.

(** ** Python values

    The values that cross the JSON-RPC boundary, and the objects the contract
    classes build. The classes of [contracts] and [utils.object_to_dictionary]
    are not part of the sources: an instance is kept as the constructor call
    that builds it ([VNew]), a class constant as the name it is read from
    ([VAttr]), and the conversion to a dictionary is a component of the
    environment below. *)

Inductive value : Type :=
| VNone
| VBool (b : bool)
| VInt (z : Z)
| VStr (s : str)
| VList (vs : list value)
| VDict (kvs : list (str * value))
| VAttr (cls attr : str)
| VNew (cls : str) (args : list value) (kwargs : list (str * value)).

(** The [params] of a request: a JSON array is passed as [*args], a JSON
    object as [**kwargs]. *)
Inductive Params : Type :=
| Positional (args : list value)
| Named (kwargs : gmap str value).

(** Python's binding of a call to a signature [names], whose first
    [required] parameters have no default and whose others default to
    [None]. [None] here stands for the [TypeError] of a call that does not
    fit. *)
Definition bind_params (names : list str) (required : nat) (p : Params)
  : option (list value) :=
  match p with
  | Positional args =>
      if (required <=? length args)%nat && (length args <=? length names)%nat
      then Some (args ++ replicate (length names - length args)%nat VNone)
      else None
  | Named kwargs =>
      if forallb (fun k => bool_decide (k ∈ names)) (elements (dom kwargs))
         && forallb (fun k => bool_decide (is_Some (kwargs !! k))) (take required names)
      then Some ((fun k => default VNone (kwargs !! k)) <$> names)
      else None
  end.

(** ** The JSON-RPC layer

    [JSONRPCResponseManager] belongs to the package [jsonrpc], outside the
    repository. Its reading of a body and its rendering of a response are
    components of the environment; what it does with the dispatch table is
    written out in [handle] below. *)

Record Request : Type := mkRequest {
  rq_id : option value;      (* [None]: a notification *)
  rq_method : str;
  rq_params : Params }.

Inductive Parsed : Type :=
| NotJson
| NotRequest
| Single (r : Request)
| Batch (rs : list Request).

Inductive RpcError : Type :=
| ParseError
| InvalidRequest
| MethodNotFound
| HandlerFailed (e : exn).

Inductive Response : Type :=
| Result (id : value) (result : value)
| Error (id : option value) (err : RpcError)
| BatchResponse (rs : list Response).

(** ** Server state *)

(** A bound method keeps its receiver: [H_shutdown self] is the object
    [self.shutdown] of the server [self]. [version] and [capabilities] are
    functions of the module. *)
Inductive Handler : Type :=
| H_initialize (self : nat)
| H_handle_connect_request (self : nat)
| H_handle_disconnect_request (self : nat)
| H_shutdown (self : nat)
| H_exit (self : nat)
| H_echo (self : nat)
| H_version
| H_capabilities
| H_wait (self : nat).

(** The lifecycle methods the JSON-RPC layer has entered on a server, noted
    where the layer calls them; specification-only. *)
Inductive Called : Type :=
| CalledInitialize
| CalledShutdown
| CalledExit.

Global Instance Called_eq_dec : EqDecision Called.
Proof. solve_decision. Defined.

(** The attributes of a [Server] object. [output_stream] is the text written
    so far; [flush] does not change it. [history] is specification-only. *)
Record Server : Type := mkServer {
  connection_service : value;
  is_shutdown : bool;
  should_exit : bool;
  threads : gset nat;
  input_stream : str;
  output_stream : str;
  history : list Called }.

(** The process: the dispatch table [jsonrpc.dispatcher], one object of the
    module [jsonrpc] shared by every server; the [Server] objects by
    identity; the joins performed on worker threads, in order. *)
Record World : Type := mkWorld {
  dispatcher : gmap str Handler;
  servers : nat -> Server;
  next_id : nat;
  joined : list nat }.

Definition set_is_shutdown (b : bool) (s : Server) : Server :=
  mkServer (connection_service s) b (should_exit s) (threads s)
           (input_stream s) (output_stream s) (history s).
Definition set_should_exit (b : bool) (s : Server) : Server :=
  mkServer (connection_service s) (is_shutdown s) b (threads s)
           (input_stream s) (output_stream s) (history s).
Definition set_threads (t : gset nat) (s : Server) : Server :=
  mkServer (connection_service s) (is_shutdown s) (should_exit s) t
           (input_stream s) (output_stream s) (history s).
Definition set_input_stream (i : str) (s : Server) : Server :=
  mkServer (connection_service s) (is_shutdown s) (should_exit s) (threads s)
           i (output_stream s) (history s).
Definition set_output_stream (o : str) (s : Server) : Server :=
  mkServer (connection_service s) (is_shutdown s) (should_exit s) (threads s)
           (input_stream s) o (history s).
Definition set_connection_service (c : value) (s : Server) : Server :=
  mkServer c (is_shutdown s) (should_exit s) (threads s)
           (input_stream s) (output_stream s) (history s).
Definition record_call (c : Called) (s : Server) : Server :=
  mkServer (connection_service s) (is_shutdown s) (should_exit s) (threads s)
           (input_stream s) (output_stream s) (history s ++ [c]).

(** The process before any server exists: the table of a freshly imported
    [jsonrpc] is empty. *)
Definition blank : Server := mkServer VNone false false ∅ [] [] [].
Definition boot : World := mkWorld ∅ (fun _ => blank) 0 [].

(** ** A monad for methods: state and exceptions

    A raised exception keeps the state reached when it was raised. *)

Definition M (A : Type) : Type := World -> result A * World.

Definition ret {A} (a : A) : M A := fun w => (Ok a, w).
Definition raise {A} (e : exn) : M A := fun w => (Raise e, w).
Definition bind {A B} (m : M A) (k : A -> M B) : M B :=
  fun w => match m w with
           | (Ok a, w') => k a w'
           | (Raise e, w') => (Raise e, w')
           end.

Notation "x <- m ;; k" := (bind m (fun x => k))
  (at level 20, m at level 99, k at level 200, only parsing).
Notation "m ;;; k" := (bind m (fun _ => k))
  (at level 100, k at level 200, right associativity, only parsing).

(** Reading the object [self], updating it in place, and binding a name of
    the dispatch table. *)
Definition get (self : nat) : M Server := fun w => (Ok (servers w self), w).
Definition store (self : nat) (s : Server) (w : World) : World :=
  mkWorld (dispatcher w) (<[self := s]> (servers w)) (next_id w) (joined w).
Definition update (self : nat) (f : Server -> Server) : M unit :=
  fun w => (Ok tt, store self (f (servers w self)) w).
Definition setitem (name : str) (h : Handler) : M unit :=
  fun w => (Ok tt, mkWorld (<[name := h]> (dispatcher w)) (servers w)
                           (next_id w) (joined w)).
Definition join_thread (t : nat) : M unit :=
  fun w => (Ok tt, mkWorld (dispatcher w) (servers w) (next_id w) (joined w ++ [t])).

(** ** Environment

    What the server uses and the sources do not contain. *)

(** Modelled from the spec: what a handler of the connection service, whose
    code is not part of the sources, does to the server that owns it. It
    registers worker threads and sends events (spec, section 5), and only
    that. *)
Inductive ServiceAction : Type :=
| RegisterThread (thread : nat)
| SendEvent (event_name : str) (event_params : value).

Record Env : Type := mkEnv {
  (** [sys.platform] *)
  platform : str;
  (** [utils.object_to_dictionary] and [json.dumps] *)
  object_to_dictionary : value -> value;
  dumps : value -> str;
  (** the JSON-RPC layer: a body read as requests, [response.json] *)
  parse : str -> Parsed;
  json : Response -> str;
  (** [ConnectionService(server)] and its two request handlers: from the
      state of the service and the parameters, the new state, what is done
      to the server, and the outcome *)
  ConnectionService : value;
  handle_connect_request : value -> Params -> value * list ServiceAction * result value;
  handle_disconnect_request : value -> Params -> value * list ServiceAction * result value }.

Definition DQUOTE : ascii := ascii_of_nat 34.
Definition quoted (s : str) : str := DQUOTE :: s ++ [DQUOTE].

Section Server.

Context (E : Env).

(** [Server.__init__]: a new object [self], and the entry [initialize] of
    the shared table bound to it. *)
Definition __init__ (input_stream output_stream : str) : M nat :=
  fun w =>
    let self := next_id w in
    (Ok self,
     mkWorld (<[lit "initialize" := H_initialize self]> (dispatcher w))
             (<[self := mkServer (ConnectionService E) false false ∅
                                 input_stream output_stream []]> (servers w))
             (S self) (joined w)).

(** [Server.initialize_dispatcher] *)
Definition initialize_dispatcher (self : nat) : M unit :=
  setitem (lit "connection/connect") (H_handle_connect_request self) ;;;
  setitem (lit "connection/disconnect") (H_handle_disconnect_request self) ;;;
  setitem (lit "shutdown") (H_shutdown self) ;;;
  setitem (lit "exit") (H_exit self) ;;;
  setitem (lit "echo") (H_echo self) ;;;
  setitem (lit "version") H_version ;;;
  setitem (lit "capabilities/list") H_capabilities ;;;
  setitem (lit "wait") (H_wait self).

(** [Server.initialize] *)
Definition initialize (self : nat)
    (processId rootPath rootUri initializationOptions capabilities trace : value)
  : M value :=
  initialize_dispatcher self ;;;
  let initialize_result :=
    VNew (lit "InitializeResult")
      [VNew (lit "ServerCapabilities") []
         [(lit "textDocumentSync", VAttr (lit "TextDocumentSyncKind") (lit "INCREMENTAL"));
          (lit "definitionProvider", VBool false);
          (lit "referencesProvider", VBool false);
          (lit "documentFormattingProvider", VBool false);
          (lit "documentRangeFormattingProvider", VBool false);
          (lit "documentHighlightProvider", VBool false);
          (lit "hoverProvider", VBool false);
          (lit "completionProvider", VNone)]] [] in
  ret (object_to_dictionary E initialize_result).

(** [Server.shutdown] *)
Definition shutdown (self : nat) : M value :=
  update self (set_is_shutdown true) ;;;
  ret VNone.

(** [Server.exit] *)
Definition exit (self : nat) : M value :=
  update self (set_should_exit true) ;;;
  ret VNone.

Fixpoint join_all (ts : list nat) : M unit :=
  match ts with
  | [] => ret tt
  | thread :: ts' => join_thread thread ;;; join_all ts'
  end.

(** [Server.wait]: every thread of the set is joined, in the order the set
    yields them. A join is taken to return. *)
Definition wait (self : nat) : M value :=
  s <- get self ;;
  join_all (elements (threads s)) ;;;
  ret VNone.

(** [Server.register_thread] *)
Definition register_thread (self : nat) (thread : nat) : M value :=
  update self (fun s => set_threads ({[thread]} ∪ threads s) s) ;;;
  ret VNone.

(** [output_stream.write]: a [str] is appended, anything else is refused. *)
Definition write (self : nat) (v : value) : M unit :=
  match v with
  | VStr text => update self (fun s => set_output_stream (output_stream s ++ text) s)
  | _ => raise TypeError
  end.

(** [Server.echo] *)
Definition echo (self : nat) (arg : value) : M value :=
  write self arg ;;;
  ret VNone.

(** The text [handle_output] writes for [output_string]. *)
Definition full_output (output_string : str) : str :=
  let newlines :=
    if bool_decide (platform E = lit "win32") then [LF; LF] else [CR; LF; CR; LF] in
  (lit "Content-Length: " ++ format_nat (length output_string) ++ newlines)
  ++ output_string.

(** [Server.handle_output] *)
Definition handle_output (self : nat) (output_string : str) : M value :=
  write self (VStr (full_output output_string)) ;;;
  ret VNone.

(** [Server.send_event] *)
Definition send_event (self : nat) (event_name : str) (event_params : value) : M value :=
  let output_string :=
    lit "{" ++ quoted (lit "jsonrpc") ++ lit ":" ++ quoted (lit "2.0") ++ lit ","
    ++ quoted (lit "method") ++ lit ":" ++ quoted event_name ++ lit ","
    ++ quoted (lit "params") ++ lit ":"
    ++ dumps E (object_to_dictionary E event_params) ++ lit "}" in
  handle_output self output_string.

(** [version] *)
Definition version : M value := ret (VStr (lit "0")).

Definition ConnectionOption (kwargs : list (str * value)) : value :=
  VNew (lit "ConnectionOption") [] kwargs.
Definition option_attr (attr : string) : value :=
  VAttr (lit "ConnectionOption") (lit attr).

(** [capabilities] *)
Definition capabilities (hostName hostVersion : value) : M value :=
  let server_capabilities :=
    VNew (lit "CapabilitiesResult")
      [VNew (lit "DMPServerCapabilities") []
         [(lit "protocolVersion", VStr (lit "1.0"));
          (lit "providerName", VStr (lit "PGSQL"));
          (lit "providerDisplayName", VStr (lit "PostgreSQL"));
          (lit "connectionProvider",
           VNew (lit "ConnectionProviderOptions") []
             [(lit "options", VList [
                ConnectionOption
                  [(lit "name", VStr (lit "connectionString"));
                   (lit "displayName", VStr (lit "Connection String"));
                   (lit "description", VStr (lit "PostgreSQL-format connection string"));
                   (lit "valueType", option_attr "VALUE_TYPE_STRING");
                   (lit "isIdentity", VBool true);
                   (lit "isRequired", VBool false);
                   (lit "groupName", VStr (lit "Source"))];
                ConnectionOption
                  [(lit "name", VStr (lit "server"));
                   (lit "displayName", VStr (lit "Server Name"));
                   (lit "description", VStr (lit "Name of the PostgreSQL instance"));
                   (lit "valueType", option_attr "VALUE_TYPE_STRING");
                   (lit "specialValueType", option_attr "SPECIAL_VALUE_SERVER_NAME");
                   (lit "isIdentity", VBool true);
                   (lit "isRequired", VBool true);
                   (lit "groupName", VStr (lit "Source"))];
                ConnectionOption
                  [(lit "name", VStr (lit "database"));
                   (lit "displayName", VStr (lit "Database Name"));
                   (lit "description",
                    VStr (lit "The name of the initial catalog or database in the data source"));
                   (lit "valueType", option_attr "VALUE_TYPE_STRING");
                   (lit "specialValueType", option_attr "SPECIAL_VALUE_DATABASE_NAME");
                   (lit "isIdentity", VBool true);
                   (lit "isRequired", VBool false);
                   (lit "groupName", VStr (lit "Source"))];
                ConnectionOption
                  [(lit "name", VStr (lit "user"));
                   (lit "displayName", VStr (lit "User Name"));
                   (lit "description",
                    VStr (lit "Indicates the user ID to be used when connecting to the data source"));
                   (lit "valueType", option_attr "VALUE_TYPE_STRING");
                   (lit "specialValueType", option_attr "SPECIAL_VALUE_USER_NAME");
                   (lit "isIdentity", VBool true);
                   (lit "isRequired", VBool true);
                   (lit "groupName", VStr (lit "Security"))];
                ConnectionOption
                  [(lit "name", VStr (lit "password"));
                   (lit "displayName", VStr (lit "Password"));
                   (lit "description",
                    VStr (lit "Indicates the password to be used when connecting to the data source"));
                   (lit "valueType", option_attr "VALUE_TYPE_PASSWORD");
                   (lit "specialValueType", option_attr "SPECIAL_VALUE_PASSWORD_NAME");
                   (lit "isIdentity", VBool true);
                   (lit "isRequired", VBool true);
                   (lit "groupName", VStr (lit "Security"))];
                ConnectionOption
                  [(lit "name", VStr (lit "authenticationType"));
                   (lit "displayName", VStr (lit "Authentication Type"));
                   (lit "description",
                    VStr (lit "Specifies the method of authenticating with SQL Server"));
                   (lit "valueType", option_attr "VALUE_TYPE_CATEGORY");
                   (lit "specialValueType", option_attr "SPECIAL_VALUE_AUTH_TYPE");
                   (lit "isIdentity", VBool true);
                   (lit "isRequired", VBool true);
                   (lit "groupName", VStr (lit "Security"));
                   (lit "categoryValues",
                    VList [VNew (lit "CategoryValue")
                             [VStr (lit "SQL Login"); VStr (lit "SqlLogin")] []])]])])]] [] in
  ret (object_to_dictionary E server_capabilities).

(** *** Frame decoder on the server's input stream *)

(** [Server.read_headers] *)
Definition read_headers (self : nat) : M (gmap str str) :=
  s <- get self ;;
  let '(outcome, rest) := read_headers_from ∅ (input_stream s) in
  update self (set_input_stream rest) ;;;
  match outcome with
  | Ok headers => ret headers
  | Raise e => raise e
  end.

(** [Server.read_content] *)
Definition read_content (self : nat) (length : Z) : M str :=
  s <- get self ;;
  match read length (input_stream s) with
  | Some (content, rest) => update self (set_input_stream rest) ;;; ret content
  | None => raise OverflowError
  end.

(** *** Dispatch *)

(** What a request handler of the connection service does, carried out on
    the server that owns the service. *)
Definition perform (self : nat) (a : ServiceAction) : M value :=
  match a with
  | RegisterThread thread => register_thread self thread
  | SendEvent event_name event_params => send_event self event_name event_params
  end.

Fixpoint perform_all (self : nat) (actions : list ServiceAction) : M unit :=
  match actions with
  | [] => ret tt
  | a :: actions' => perform self a ;;; perform_all self actions'
  end.

Definition service_request (self : nat)
    (handler : value -> Params -> value * list ServiceAction * result value)
    (p : Params) : M value :=
  s <- get self ;;
  let '(service, actions, outcome) := handler (connection_service s) p in
  update self (set_connection_service service) ;;;
  perform_all self actions ;;;
  match outcome with
  | Ok v => ret v
  | Raise e => raise e
  end.

(** The layer enters the body of a lifecycle method of [self]: the entry
    is noted in the history of [self], which no method reads or writes, and
    the body runs. *)
Definition entered (self : nat) (c : Called) (body : M value) : M value :=
  update self (record_call c) ;;; body.

(** The call of a bound entry of the table with the parameters of a
    request. The parameters are bound first; a call that does not fit the
    signature raises [TypeError] and the body is not entered. *)
Definition call (h : Handler) (p : Params) : M value :=
  match h with
  | H_initialize self =>
      match bind_params [lit "processId"; lit "rootPath"; lit "rootUri";
                         lit "initializationOptions"; lit "capabilities";
                         lit "trace"] 0 p with
      | Some [a; b; c; d; e; f] =>
          entered self CalledInitialize (initialize self a b c d e f)
      | _ => raise TypeError
      end
  | H_handle_connect_request self =>
      service_request self (handle_connect_request E) p
  | H_handle_disconnect_request self =>
      service_request self (handle_disconnect_request E) p
  | H_shutdown self =>
      match bind_params [] 0 p with
      | Some _ => entered self CalledShutdown (shutdown self)
      | None => raise TypeError
      end
  | H_exit self =>
      match bind_params [] 0 p with
      | Some _ => entered self CalledExit (exit self)
      | None => raise TypeError
      end
  | H_echo self =>
      match bind_params [lit "arg"] 1 p with
      | Some [arg] => echo self arg
      | _ => raise TypeError
      end
  | H_version =>
      match bind_params [] 0 p with Some _ => version | None => raise TypeError end
  | H_capabilities =>
      match bind_params [lit "hostName"; lit "hostVersion"] 2 p with
      | Some [hostName; hostVersion] => capabilities hostName hostVersion
      | _ => raise TypeError
      end
  | H_wait self =>
      match bind_params [] 0 p with Some _ => wait self | None => raise TypeError end
  end.

(** The answer to a request: none for a notification. *)
Definition respond (r : Request) (body : value + RpcError) : option Response :=
  match rq_id r with
  | None => None
  | Some id =>
      Some (match body with
            | inl v => Result id v
            | inr err => Error (Some id) err
            end)
  end.

(** One request against the table: the method is looked up when the request
    is handled; a failure of the handler becomes an error response. *)
Definition handle_request (r : Request) : M (option Response) :=
  fun w =>
    match dispatcher w !! rq_method r with
    | None => (Ok (respond r (inr MethodNotFound)), w)
    | Some h =>
        match call h (rq_params r) w with
        | (Ok v, w') => (Ok (respond r (inl v)), w')
        | (Raise e, w') => (Ok (respond r (inr (HandlerFailed e))), w')
        end
    end.

Fixpoint handle_batch (rs : list Request) : M (list Response) :=
  match rs with
  | [] => ret []
  | r :: rs' =>
      o <- handle_request r ;;
      l <- handle_batch rs' ;;
      ret (option_list o ++ l)
  end.

(** [JSONRPCResponseManager.handle(request_str, dispatcher)] *)
Definition handle (request_str : str) : M (option Response) :=
  match parse E request_str with
  | NotJson => ret (Some (Error None ParseError))
  | NotRequest => ret (Some (Error None InvalidRequest))
  | Single r => handle_request r
  | Batch rs =>
      l <- handle_batch rs ;;
      ret (match l with [] => None | _ => Some (BatchResponse l) end)
  end.

(** *** The server loop *)

(** The first lines of the body of the loop: a frame is read and handed to
    the JSON-RPC layer. *)
Definition next_response (self : nat) : M (option Response) :=
  headers <- read_headers self ;;
  content_length <-
    match headers !! lit "Content-Length" with
    | Some v => ret v
    | None => raise (KeyError (lit "Content-Length"))
    end ;;
  length <-
    match int content_length with
    | Some n => ret n
    | None => raise ValueError
    end ;;
  somestring <- read_content self length ;;
  handle somestring.

(** The body of the loop. [Some code] is [sys.exit(code)]; [None] goes on to
    the next turn. *)
Definition loop_body (self : nat) : M (option Z) :=
  response <- next_response self ;;
  s <- get self ;;
  if should_exit s then ret (Some (if is_shutdown s then 0 else 1))
  else match response with
       | None => ret None
       | Some r => handle_output self (json E r) ;;; ret None
       end.

(** How [handle_input] ends: the process exits with a code, or an exception
    leaves the loop. [Running] is a loop that has turns left to take. *)
Inductive Ending : Type :=
| Exited (code : Z)
| Raised (e : exn)
| Running.

(** [Server.handle_input], for at most [turns] turns of the loop. *)
Fixpoint handle_input (turns : nat) (self : nat) (w : World) : Ending * World :=
  match turns with
  | O => (Running, w)
  | S turns' =>
      match loop_body self w with
      | (Ok None, w') => handle_input turns' self w'
      | (Ok (Some code), w') => (Exited code, w')
      | (Raise e, w') => (Raised e, w')
      end
  end.

End Server.

(** ** Sample processes

    Two environments for the examples: a POSIX host and a Windows host. Their
    JSON-RPC layer reads the bodies [request_text m] of the requests without
    parameters, all with the identifier 1; the connection service does
    nothing. *)

Definition request_text (method : str) : str :=
  lit "{" ++ quoted (lit "jsonrpc") ++ lit ":" ++ quoted (lit "2.0") ++ lit ","
  ++ quoted (lit "id") ++ lit ":1," ++ quoted (lit "method") ++ lit ":"
  ++ quoted method ++ lit "}".

Definition known_methods : list str :=
  [lit "initialize"; lit "connection/connect"; lit "connection/disconnect";
   lit "shutdown"; lit "exit"; lit "echo"; lit "version";
   lit "capabilities/list"; lit "wait"].

Definition sample_parse (body : str) : Parsed :=
  match List.find (fun m => bool_decide (body = request_text m)) known_methods with
  | Some m => Single (mkRequest (Some (VInt 1)) m (Positional []))
  | None => NotJson
  end.

Definition sample_json (r : Response) : str :=
  match r with
  | Result _ _ => lit "{" ++ quoted (lit "result") ++ lit ":null}"
  | Error _ _ => lit "{" ++ quoted (lit "error") ++ lit ":{}}"
  | BatchResponse _ => lit "[]"
  end.

Definition idle_service (service : value) (p : Params)
  : value * list ServiceAction * result value := (service, [], Ok VNone).

Definition sample (platform : string) : Env :=
  mkEnv (lit platform) (fun v => v) (fun _ => lit "null")
        sample_parse sample_json VNone idle_service idle_service.

Definition posix : Env := sample "linux".
Definition windows : Env := sample "win32".

(** A frame as a client sends it. *)
Definition client_frame (body : str) : str :=
  lit "Content-Length: " ++ format_nat (length body) ++ [CR; LF; CR; LF] ++ body.

(** The blank-line terminator as the specification words it: the native
    line ending of the host, twice. *)
Definition native_newlines (E : Env) : str :=
  if bool_decide (platform E = lit "win32") then [CR; LF; CR; LF] else [LF; LF].

(** The methods [initialize_dispatcher] binds. *)
Definition domain_methods : list str :=
  [lit "connection/connect"; lit "connection/disconnect"; lit "shutdown";
   lit "exit"; lit "echo"; lit "version"; lit "capabilities/list"; lit "wait"].

(** The table [d] after [initialize_dispatcher] has run for [self]. *)
Definition bind_domain (self : nat) (d : gmap str Handler) : gmap str Handler :=
  <[lit "wait" := H_wait self]>
  (<[lit "capabilities/list" := H_capabilities]>
  (<[lit "version" := H_version]>
  (<[lit "echo" := H_echo self]>
  (<[lit "exit" := H_exit self]>
  (<[lit "shutdown" := H_shutdown self]>
  (<[lit "connection/disconnect" := H_handle_disconnect_request self]>
  (<[lit "connection/connect" := H_handle_connect_request self]> d))))))).

(** ** Relations between states *)

(** The flags that are set stay set, on every server. *)
Definition flags_kept (w w' : World) : Prop :=
  forall i,
    (is_shutdown (servers w i) = true -> is_shutdown (servers w' i) = true)
    /\ (should_exit (servers w i) = true -> should_exit (servers w' i) = true).

(** Each flag tells whether its method has run, on every server. *)
Definition lifecycle_recorded (w : World) : Prop :=
  forall i,
    (is_shutdown (servers w i) = true <-> CalledShutdown ∈ history (servers w i))
    /\ (should_exit (servers w i) = true <-> CalledExit ∈ history (servers w i)).

(** The record of the lifecycle calls stays faithful. *)
Definition recorded_after (w w' : World) : Prop :=
  lifecycle_recorded w -> lifecycle_recorded w'.

(** A relation between the state before and the state after that every
    elementary change of the state respects. *)
Record StepClosed (R : World -> World -> Prop) : Prop := mkStepClosed {
  step_refl : forall w, R w w;
  step_trans : forall w1 w2 w3, R w1 w2 -> R w2 w3 -> R w1 w3;
  step_setitem : forall name h w, R w (setitem name h w).2;
  step_join : forall t w, R w (join_thread t w).2;
  step_initialize : forall self w,
    R w (store self (record_call CalledInitialize (servers w self)) w);
  step_shutdown : forall self w,
    R w (entered self CalledShutdown (shutdown self) w).2;
  step_exit : forall self w,
    R w (entered self CalledExit (exit self) w).2;
  step_threads : forall self t w,
    R w (store self (set_threads t (servers w self)) w);
  step_output : forall self o w,
    R w (store self (set_output_stream o (servers w self)) w);
  step_input : forall self i w,
    R w (store self (set_input_stream i (servers w self)) w);
  step_service : forall self c w,
    R w (store self (set_connection_service c (servers w self)) w) }.

(** A method every run of which relates the state it starts from to the
    state it leaves. *)
Definition keeps (R : World -> World -> Prop) {A} (m : M A) : Prop :=
  forall w, R w (m w).2.

(** ** What a run can only add to *)

(** Text written stays written, on every server. *)
Definition output_extends (w w' : World) : Prop :=
  forall i, output_stream (servers w i) `prefix_of` output_stream (servers w' i).

(** Input is only consumed from the front, on every server. *)
Definition input_consumed (w w' : World) : Prop :=
  forall i, input_stream (servers w' i) `suffix_of` input_stream (servers w i).

(** A tracked thread stays tracked, on every server. *)
Definition threads_kept (w w' : World) : Prop :=
  forall i, threads (servers w i) ⊆ threads (servers w' i).

(** A name bound in the dispatch table stays bound. *)
Definition bindings_kept (w w' : World) : Prop :=
  dom (dispatcher w) ⊆ dom (dispatcher w').

Definition advances (w w' : World) : Prop :=
  output_extends w w' /\ input_consumed w w' /\ threads_kept w w'
  /\ bindings_kept w w'.

(** A relation that the elementary changes of the state respect, each taken
    in the form the methods perform it: text is appended to an output
    stream, a prefix is taken off an input stream, a handle is added to a
    set of threads. *)
Record Progress (R : World -> World -> Prop) : Prop := mkProgress {
  progress_refl : forall w, R w w;
  progress_trans : forall w1 w2 w3, R w1 w2 -> R w2 w3 -> R w1 w3;
  progress_setitem : forall name h w, R w (setitem name h w).2;
  progress_join : forall t w, R w (join_thread t w).2;
  progress_initialize : forall self w,
    R w (store self (record_call CalledInitialize (servers w self)) w);
  progress_shutdown : forall self w,
    R w (entered self CalledShutdown (shutdown self) w).2;
  progress_exit : forall self w,
    R w (entered self CalledExit (exit self) w).2;
  progress_threads : forall self t w,
    R w (store self (set_threads ({[t]} ∪ threads (servers w self)) (servers w self)) w);
  progress_output : forall self text w,
    R w (store self (set_output_stream (output_stream (servers w self) ++ text)
                                       (servers w self)) w);
  progress_input : forall self consumed rest w,
    input_stream (servers w self) = consumed ++ rest ->
    R w (store self (set_input_stream rest (servers w self)) w);
  progress_service : forall self c w,
    R w (store self (set_connection_service c (servers w self)) w) }.

(** The server a bound method belongs to. *)
Definition receiver (h : Handler) : option nat :=
  match h with
  | H_initialize self | H_handle_connect_request self
  | H_handle_disconnect_request self | H_shutdown self | H_exit self
  | H_echo self | H_wait self => Some self
  | H_version | H_capabilities => None
  end.

(** No server other than [a] is changed. *)
Definition others_untouched (a : nat) (w w' : World) : Prop :=
  forall i, i <> a -> servers w' i = servers w i.


(** The body of the frame [send_event] writes. *)
Definition event_text (E : Env) (event_name : str) (event_params : value) : str :=
  lit "{" ++ quoted (lit "jsonrpc") ++ lit ":" ++ quoted (lit "2.0") ++ lit ","
  ++ quoted (lit "method") ++ lit ":" ++ quoted event_name ++ lit ","
  ++ quoted (lit "params") ++ lit ":"
  ++ dumps E (object_to_dictionary E event_params) ++ lit "}".

(** * Properties *)

(** ** Text *)

Example strip_ex : strip (lit "  Content-Length: 5" ++ [CR; LF]) = lit "Content-Length: 5".
Proof. reflexivity. Qed.
Example split_ex : split_colon_space (lit "X: a: b") = [lit "X"; lit "a"; lit "b"].
Proof. reflexivity. Qed.
Example int_ex : int (lit " 1_000 ") = Some 1000 /\ int (lit "1__0") = None /\ int (lit "-12") = Some (-12) /\ int (lit "") = None /\ int (lit "0x10") = None.
Proof. repeat split; reflexivity. Qed.
Example format_ex : format_nat 57 = lit "57".
Proof. reflexivity. Qed.

(** The separators FS..US are white space for [strip] and not for [int];
    NEL and the no-break space are white space for both. *)
Example int_separator_ex :
  int (ascii_of_nat 31 :: lit "46") = None
  /\ strip (ascii_of_nat 31 :: lit "46") = lit "46"
  /\ int (ascii_of_nat 160 :: lit "46" ++ [ascii_of_nat 133]) = Some 46.
Proof. repeat split; reflexivity. Qed.

(** A numeral of more than [max_str_digits] digits is refused. *)
Example int_limit_ex :
  int (replicate 4300 "1"%char) <> None
  /\ int (replicate 4301 "1"%char) = None
  /\ int (replicate 4301 "0"%char) = None
  /\ int ("-"%char :: replicate 4300 "1"%char) <> None.
Proof. vm_compute. repeat split; discriminate. Qed.

(** [read] at the ends of the range of a C [ssize_t]. *)
Example read_ex :
  read (2 ^ 63) (lit "abc") = None
  /\ read (2 ^ 63 - 1) (lit "abc") = Some (lit "abc", [])
  /\ read (- 2 ^ 63) (lit "abc") = Some (lit "abc", [])
  /\ read (- 2 ^ 63 - 1) (lit "abc") = None
  /\ read 2 (lit "abc") = Some (lit "ab", lit "c").
Proof.
  split; [reflexivity | split; [| split; [reflexivity | split; reflexivity]]].
  unfold read.
  change ((2 ^ 63 - 1 <? - maxsize - 1) || (maxsize <? 2 ^ 63 - 1)) with false.
  change (2 ^ 63 - 1 <? 0) with false. cbv iota.
  rewrite take_ge, drop_ge by (cbn [length lit list_ascii_of_string]; lia).
  reflexivity.
Qed.

Lemma readline_length stream raw rest :
  readline stream = (raw, rest) -> (length raw + length rest = length stream)%nat.
Proof.
  revert raw rest. induction stream as [|c s IH]; intros raw rest; simpl.
  - intros [= <- <-]. reflexivity.
  - destruct (Ascii.eqb c LF).
    + intros [= <- <-]. reflexivity.
    + destruct (readline s) as [l r]. intros [= <- <-].
      simpl. rewrite (IH l r eq_refl). reflexivity.
Qed.

Section TextFacts.

Ltac ascii_cases c :=
  destruct c as [[] [] [] [] [] [] [] []]; try discriminate; try reflexivity.

Lemma is_digit_not_space c : is_digit c = true -> isspace c = false.
Proof. ascii_cases c. Qed.

Lemma is_digit_not_LF c : is_digit c = true -> Ascii.eqb c LF = false.
Proof. ascii_cases c. Qed.

Lemma is_digit_not_colon c : is_digit c = true -> Ascii.eqb c ":" = false.
Proof. ascii_cases c. Qed.

Lemma is_digit_not_sign c :
  is_digit c = true -> Ascii.eqb c "+" = false /\ Ascii.eqb c "-" = false.
Proof. ascii_cases c; split; reflexivity. Qed.

Lemma chars_of_uint_digits d : Forall (fun c => is_digit c = true) (chars_of_uint d).
Proof. induction d; simpl; constructor; auto. Qed.

Lemma to_uint_not_Nil n : Nat.to_uint n <> Nil.
Proof.
  intros H. assert (n = 0%nat) as ->.
  { rewrite <- (Unsigned.of_to n), H. reflexivity. }
  discriminate H.
Qed.

Lemma format_nat_digits n : Forall (fun c => is_digit c = true) (format_nat n).
Proof. apply chars_of_uint_digits. Qed.

Lemma format_nat_not_nil n : format_nat n <> [].
Proof.
  unfold format_nat. pose proof (to_uint_not_Nil n) as H.
  destruct (Nat.to_uint n); [congruence | discriminate ..].
Qed.

Lemma parse_chars_of_uint d : forall (acc : nat) (seen : bool),
  d <> Nil \/ seen = true ->
  parse_digits (Z.of_nat acc) seen (chars_of_uint d)
  = Some (Z.of_nat (Nat.of_uint_acc d acc)).
Proof.
  induction d; intros acc seen Hne; simpl chars_of_uint;
    [ destruct Hne as [Hne | ->]; [congruence | reflexivity] | .. ];
    cbn [parse_digits Nat.of_uint_acc];
    match goal with
    | |- context [is_digit ?c] => change (is_digit c) with true; cbv iota
    end;
    match goal with
    | |- parse_digits ?z true _ = Some (Z.of_nat (Nat.of_uint_acc _ ?a)) =>
        replace z with (Z.of_nat a)
          by (rewrite Nat.tail_mul_spec; unfold digit_value;
              match goal with
              | |- context [Z.of_nat (nat_of_ascii ?c)] =>
                  let v := eval vm_compute in (Z.of_nat (nat_of_ascii c)) in
                  change (Z.of_nat (nat_of_ascii c)) with v
              end; lia)
    end;
    apply IHd; right; reflexivity.
Qed.

Lemma count_digits_all s :
  Forall (fun c => is_digit c = true) s -> count_digits s = length s.
Proof.
  induction 1 as [|c s Hc _ IH]; [reflexivity |].
  cbn [count_digits length]. rewrite Hc, IH. reflexivity.
Qed.






(** [int(str(n)) == n] *)
Lemma parse_format_nat n : parse_digits 0 false (format_nat n) = Some (Z.of_nat n).
Proof.
  unfold format_nat. change 0 with (Z.of_nat 0).
  rewrite parse_chars_of_uint by (left; apply to_uint_not_Nil).
  change (Nat.of_uint_acc (Nat.to_uint n) 0) with (Nat.of_uint (Nat.to_uint n)).
  rewrite Unsigned.of_to. reflexivity.
Qed.

Lemma readline_app_LF a b :
  Forall (fun c => Ascii.eqb c LF = false) a ->
  readline (a ++ LF :: b) = (a ++ [LF], b).
Proof.
  induction 1 as [|c a Hc _ IH]; simpl.
  - reflexivity.
  - rewrite Hc, IH. reflexivity.
Qed.

Lemma lstrip_by_spaces space ws s :
  Forall (fun c => space c = true) ws ->
  lstrip_by space (ws ++ s) = lstrip_by space s.
Proof. induction 1 as [|c ws Hc _ IH]; simpl; [reflexivity | rewrite Hc; exact IH]. Qed.

Lemma rstrip_by_spaces space s c ws :
  space c = false -> Forall (fun c => space c = true) ws ->
  rstrip_by space ((s ++ [c]) ++ ws) = s ++ [c].
Proof.
  intros Hc Hws. unfold rstrip_by.
  rewrite rev_app_distr, lstrip_by_spaces by (apply Forall_rev; exact Hws).
  rewrite rev_app_distr. simpl. rewrite Hc.
  change (c :: rev s) with ([c] ++ rev s).
  rewrite rev_app_distr, rev_involutive. reflexivity.
Qed.

(** Stripping a text that begins and ends with visible characters removes
    exactly the white space put after it. *)
Lemma strip_by_trailing space c s ws :
  space c = false ->
  space (List.last (c :: s) c) = false ->
  Forall (fun c => space c = true) ws ->
  strip_by space ((c :: s) ++ ws) = c :: s.
Proof.
  intros Hc Hlast Hws. unfold strip_by.
  replace (lstrip_by space ((c :: s) ++ ws)) with ((c :: s) ++ ws)
    by (simpl; rewrite Hc; reflexivity).
  destruct (exists_last (l := c :: s)) as (s' & c' & Heq); [discriminate |].
  rewrite Heq in Hlast |- *. rewrite last_last in Hlast.
  apply rstrip_by_spaces; assumption.
Qed.

Lemma lstrip_spaces ws s :
  Forall (fun c => isspace c = true) ws -> lstrip (ws ++ s) = lstrip s.
Proof. apply lstrip_by_spaces. Qed.

Lemma strip_trailing c s ws :
  isspace c = false ->
  isspace (List.last (c :: s) c) = false ->
  Forall (fun c => isspace c = true) ws ->
  strip ((c :: s) ++ ws) = c :: s.
Proof. apply strip_by_trailing. Qed.

Lemma is_digit_not_int_space c : is_digit c = true -> int_space c = false.
Proof. destruct c as [[] [] [] [] [] [] [] []]; try discriminate; reflexivity. Qed.

Lemma split2_cons a b c d s :
  split2 a b (c :: d :: s)
  = if Ascii.eqb c a && Ascii.eqb d b then [] :: split2 a b s
    else cons_first c (split2 a b (d :: s)).
Proof. reflexivity. Qed.

Lemma contains2_cons a b c d s :
  contains2 a b (c :: d :: s)
  = (Ascii.eqb c a && Ascii.eqb d b) || contains2 a b (d :: s).
Proof. reflexivity. Qed.

Lemma split2_before_separator name y :
  contains2 ":" " " name = false ->
  split2 ":" " " (name ++ ":"%char :: " "%char :: y) = name :: split2 ":" " " y.
Proof.
  induction name as [|c name IH]; intros Hname.
  - reflexivity.
  - destruct name as [|d name'].
    + cbn [app]. rewrite split2_cons.
      replace (Ascii.eqb c ":" && Ascii.eqb ":" " ") with false
        by (rewrite andb_false_r; reflexivity).
      rewrite split2_cons. reflexivity.
    + rewrite contains2_cons in Hname.
      apply orb_false_elim in Hname as [Hcd Hrest].
      change ((c :: d :: name') ++ ":"%char :: " "%char :: y)
        with (c :: d :: (name' ++ ":"%char :: " "%char :: y)).
      rewrite split2_cons, Hcd.
      change (d :: name' ++ ":"%char :: " "%char :: y)
        with ((d :: name') ++ ":"%char :: " "%char :: y).
      rewrite (IH Hrest). reflexivity.
Qed.

Lemma contains2_split2 a b s : contains2 a b s = false -> split2 a b s = [s].
Proof.
  induction s as [|c s IH]; [reflexivity |].
  destruct s as [|d s']; [reflexivity |].
  rewrite contains2_cons, split2_cons. intros [H1 H2]%orb_false_elim.
  rewrite H1, (IH H2). reflexivity.
Qed.

Lemma digits_contains2 s :
  Forall (fun c => is_digit c = true) s -> contains2 ":" " " s = false.
Proof.
  induction 1 as [|c s Hc _ IH]; [reflexivity |].
  destruct s as [|d s']; [reflexivity |].
  rewrite contains2_cons, (is_digit_not_colon c Hc). exact IH.
Qed.

End TextFacts.

(** ** Frame codec *)

Example read_headers_from_ex :
  read_headers_from ∅ (lit "Content-Length: 2" ++ [CR; LF; CR; LF] ++ lit "{}")
  = (Ok {[ lit "Content-Length" := lit "2" ]}, lit "{}").
Proof. vm_compute. reflexivity. Qed.

Lemma read_headers_from_step headers stream :
  read_headers_from headers stream =
  let '(raw, rest) := readline stream in
  let line := strip raw in
  if bool_decide (line = []) then (Ok headers, rest)
  else match split_colon_space line with
       | name :: value :: _ => read_headers_from (<[name := value]> headers) rest
       | _ => (Raise IndexError, rest)
       end.
Proof.
  funelim (read_headers_from headers stream); rewrite Hread;
    repeat match goal with
           | H : strip _ = _ |- _ => rewrite H
           | H : split_colon_space _ = _ |- _ => rewrite H
           end; reflexivity.
Qed.

Section Codec.

Context (E : Env).

Lemma header_line_strip digits ws :
  digits <> [] ->
  Forall (fun c => is_digit c = true) digits ->
  Forall (fun c => isspace c = true) ws ->
  strip ((lit "Content-Length: " ++ digits) ++ ws) = lit "Content-Length: " ++ digits.
Proof.
  intros Hne Hd Hws. apply (strip_trailing "C"); [reflexivity | | exact Hws].
  destruct (exists_last Hne) as (ds & c & ->).
  change ("C"%char :: _) with (lit "Content-Length: " ++ ds ++ [c]).
  rewrite app_assoc, last_last.
  apply is_digit_not_space. rewrite Forall_app, Forall_singleton in Hd. apply Hd.
Qed.

Lemma header_line_split digits :
  Forall (fun c => is_digit c = true) digits ->
  split_colon_space (lit "Content-Length: " ++ digits) = [lit "Content-Length"; digits].
Proof.
  intros Hd. unfold split_colon_space.
  change (lit "Content-Length: " ++ digits)
    with (lit "Content-Length" ++ ":"%char :: " "%char :: digits).
  rewrite split2_before_separator by reflexivity.
  rewrite (contains2_split2 _ _ digits (digits_contains2 _ Hd)). reflexivity.
Qed.

Lemma header_line_no_LF digits ws :
  Forall (fun c => is_digit c = true) digits ->
  Forall (fun c => Ascii.eqb c LF = false) ws ->
  Forall (fun c => Ascii.eqb c LF = false) ((lit "Content-Length: " ++ digits) ++ ws).
Proof.
  intros Hd Hws. rewrite !Forall_app. repeat split; [| | exact Hws].
  - repeat constructor.
  - eapply List.Forall_impl; [apply is_digit_not_LF | exact Hd].
Qed.

(** A block of one [Content-Length] line and a blank line, each ended by
    [ws] and a line feed, in front of [body]. *)
Lemma read_headers_frame digits ws body :
  digits <> [] ->
  Forall (fun c => is_digit c = true) digits ->
  Forall (fun c => isspace c = true) ws ->
  Forall (fun c => Ascii.eqb c LF = false) ws ->
  read_headers_from ∅
    ((lit "Content-Length: " ++ digits) ++ ws ++ LF :: ws ++ LF :: body)
  = (Ok {[ lit "Content-Length" := digits ]}, body).
Proof.
  intros Hne Hd Hsp Hlf.
  rewrite read_headers_from_step, app_assoc.
  rewrite readline_app_LF by (apply header_line_no_LF; assumption).
  cbv beta iota zeta. rewrite <- app_assoc, header_line_strip; try assumption.
  2: { apply Forall_app; split; [exact Hsp | repeat constructor]. }
  rewrite header_line_split by assumption.
  rewrite bool_decide_eq_false_2 by discriminate.
  rewrite read_headers_from_step, readline_app_LF by exact Hlf.
  cbv beta iota zeta.
  replace (strip (ws ++ [LF])) with (@nil ascii).
  - rewrite insert_empty. reflexivity.
  - unfold strip, strip_by. rewrite lstrip_by_spaces by exact Hsp. reflexivity.
Qed.

(** Decoding what [handle_output] writes for [s]. *)
Lemma read_headers_full_output s :
  read_headers_from ∅ (full_output E s)
  = (Ok {[ lit "Content-Length" := format_nat (length s) ]}, s).
Proof.
  unfold full_output.
  pose proof (format_nat_not_nil (length s)) as Hne.
  pose proof (format_nat_digits (length s)) as Hd.
  destruct (bool_decide (platform E = lit "win32")).
  - eapply eq_trans; [| apply (read_headers_frame _ [] s Hne Hd); constructor].
    f_equal. rewrite <- !app_assoc. reflexivity.
  - eapply eq_trans;
      [| apply (read_headers_frame _ [CR] s Hne Hd); repeat constructor].
    f_equal. rewrite <- !app_assoc. reflexivity.
Qed.

Lemma int_format_nat n :
  int (format_nat n)
  = if (length (format_nat n) <=? max_str_digits)%nat then Some (Z.of_nat n) else None.
Proof.
  unfold int.
  pose proof (format_nat_not_nil n) as Hne.
  pose proof (format_nat_digits n) as Hd.
  pose proof (parse_format_nat n) as Hp.
  destruct (format_nat n) as [|c ds] eqn:Heq; [congruence |].
  assert (strip_by int_space (c :: ds) = c :: ds) as Hstrip.
  { rewrite <- (app_nil_r (c :: ds)) at 1.
    destruct (exists_last (l := c :: ds)) as (s' & c' & Hl); [discriminate |].
    apply strip_by_trailing; [| | constructor].
    - apply is_digit_not_int_space. inversion Hd; assumption.
    - rewrite Hl, last_last. apply is_digit_not_int_space.
      rewrite Hl, Forall_app, Forall_singleton in Hd. apply Hd. }
  cbv zeta. rewrite Hstrip, (count_digits_all _ Hd), Nat.ltb_antisym.
  destruct (length (c :: ds) <=? max_str_digits)%nat; cbn [negb]; [| reflexivity].
  inversion Hd as [|? ? Hc _]; subst.
  destruct (is_digit_not_sign c Hc) as [-> ->]. exact Hp.
Qed.


Lemma servers_store self s w i :
  servers (store self s w) i = if decide (self = i) then s else servers w i.
Proof.
  unfold store; simpl. destruct (decide (self = i)) as [->|Hne].
  - apply fn_lookup_insert.
  - apply fn_lookup_insert_ne. exact Hne.
Qed.

Lemma servers_store_eq self s w : servers (store self s w) self = s.
Proof. rewrite servers_store, decide_True; reflexivity. Qed.

(** What [handle_output] does: the frame is appended to the output stream
    of [self] and nothing is raised. *)
Lemma handle_output_spec self s w :
  handle_output E self s w
  = (Ok VNone,
     store self (set_output_stream (output_stream (servers w self) ++ full_output E s)
                                   (servers w self)) w).
Proof. reflexivity. Qed.

Lemma read_whole (s : str) :
  read (Z.of_nat (length s)) s
  = if Z.of_nat (length s) <=? maxsize then Some (s, []) else None.
Proof.
  unfold read.
  replace (Z.of_nat (length s) <? - maxsize - 1) with false
    by (symmetry; apply Z.ltb_ge; unfold maxsize; lia).
  cbn [orb]. rewrite (Z.ltb_antisym (Z.of_nat (length s)) maxsize).
  destruct (Z.of_nat (length s) <=? maxsize); cbn [negb]; [| reflexivity].
  rewrite (proj2 (Z.ltb_ge _ _)) by lia.
  rewrite Nat2Z.id, firstn_all, drop_all. reflexivity.
Qed.




(** C3, as the code has it. The text written for a body is the header
    [Content-Length: n], the terminator, and the body; the terminator is two
    line feeds when [sys.platform] is [win32] and two CR LF pairs on every
    other platform. *)
Theorem handle_output_newlines (self : nat) (w : World) (s : str) :
  output_stream (servers (handle_output E self s w).2 self)
  = output_stream (servers w self)
    ++ lit "Content-Length: " ++ format_nat (length s)
    ++ (if bool_decide (platform E = lit "win32") then [LF; LF] else [CR; LF; CR; LF])
    ++ s.
Proof.
  rewrite handle_output_spec. cbn [snd]. rewrite servers_store_eq.
  cbn [output_stream set_output_stream]. unfold full_output.
  rewrite <- !app_assoc. reflexivity.
Qed.

End Codec.


(** C2 as stated fails: for the body of the one character U+00E9, whose
    UTF-8 encoding has two bytes, the [Content-Length] written and read back
    is 1. *)
Lemma content_length_in_bytes_counterexample :
  let s := [ascii_of_nat 233] in
  let written :=
    drop (length (output_stream (servers boot 0%nat)))
         (output_stream (servers (handle_output posix 0%nat s boot).2 0%nat)) in
  read_headers_from ∅ written = (Ok {[ lit "Content-Length" := lit "1" ]}, s)
  /\ int (lit "1") = Some 1
  /\ utf8_length s = 2%nat
  /\ Some 1 <> Some (Z.of_nat (utf8_length s)).
Proof.
  cbv zeta. split; [vm_compute; reflexivity | split; [reflexivity | split]].
  - reflexivity.
  - discriminate.
Qed.

(** C3 as stated fails: on a POSIX host the terminator written is two CR LF
    pairs, not the two line feeds of the native convention. *)
Lemma native_newlines_counterexample :
  output_stream (servers (handle_output posix 0%nat (lit "{}") boot).2 0%nat)
  = lit "Content-Length: 2" ++ [CR; LF; CR; LF] ++ lit "{}"
  /\ output_stream (servers (handle_output posix 0%nat (lit "{}") boot).2 0%nat)
     <> lit "Content-Length: 2" ++ native_newlines posix ++ lit "{}".
Proof. split; [reflexivity | discriminate]. Qed.

(** ** Thread registry *)

Lemma join_all_spec ts w :
  join_all ts w
  = (Ok tt, mkWorld (dispatcher w) (servers w) (next_id w) (joined w ++ ts)).
Proof.
  revert w. induction ts as [|t ts IH]; intros w.
  - simpl. unfold ret. rewrite app_nil_r. destruct w; reflexivity.
  - simpl. unfold bind, join_thread. rewrite IH. simpl.
    rewrite <- app_assoc. reflexivity.
Qed.

Lemma wait_spec self w :
  wait self w
  = (Ok VNone,
     mkWorld (dispatcher w) (servers w) (next_id w)
             (joined w ++ elements (threads (servers w self)))).
Proof. unfold wait, bind, get. rewrite join_all_spec. reflexivity. Qed.

Lemma register_thread_spec self t w :
  register_thread self t w
  = (Ok VNone, store self (set_threads ({[t]} ∪ threads (servers w self)) (servers w self)) w).
Proof. reflexivity. Qed.

(** C7, as the code has it. [wait] returns after joining every tracked
    handle and leaves the set of tracked threads as it was;
    [register_thread] adds its handle to the set, which grows by one when
    the handle was not tracked yet and not at all otherwise. *)
Theorem wait_joins_and_keeps (self : nat) (w : World) :
  (wait self w).1 = Ok VNone
  /\ threads (servers (wait self w).2 self) = threads (servers w self)
  /\ (forall t, t ∈ threads (servers w self) -> t ∈ joined (wait self w).2)
  /\ forall t,
       threads (servers (register_thread self t w).2 self)
       = {[t]} ∪ threads (servers w self)
       /\ size (threads (servers (register_thread self t w).2 self))
          = if decide (t ∈ threads (servers w self))
            then size (threads (servers w self))
            else S (size (threads (servers w self))).
Proof.
  rewrite wait_spec. cbn [fst snd servers joined].
  split; [reflexivity | split; [reflexivity | split]].
  - intros t Ht. apply elem_of_app. right. apply elem_of_elements. exact Ht.
  - intros t. rewrite register_thread_spec. cbn [snd].
    rewrite servers_store_eq. cbn [threads set_threads].
    split; [reflexivity |]. destruct (decide (t ∈ threads (servers w self))) as [Hin|Hout].
    + f_equal. set_solver.
    + rewrite size_union by (apply disjoint_singleton_l; exact Hout).
      rewrite size_singleton. reflexivity.
Qed.

(** C7 as stated fails: a registered handle is still tracked after [wait]
    has returned, and registering it once more does not make the set
    grow. *)
Lemma wait_drains_counterexample :
  let w := (register_thread 0 7 boot).2 in
  (wait 0 w).1 = Ok VNone
  /\ 7%nat ∈ joined (wait 0 w).2
  /\ threads (servers (wait 0 w).2 0%nat) <> ∅
  /\ size (threads (servers (register_thread 0 7 w).2 0%nat))
     = size (threads (servers w 0%nat)).
Proof.
  cbv zeta. rewrite wait_spec, !register_thread_spec. cbn [fst snd servers joined].
  rewrite !servers_store_eq. cbn [threads set_threads blank boot servers joined].
  split; [reflexivity | split; [| split]].
  - apply elem_of_app. right. apply elem_of_elements. set_solver.
  - set_solver.
  - f_equal; set_solver.
Qed.

(** ** Dispatch table and handshake *)

Section Handshake.

Context (E : Env).

Lemma initialize_dispatcher_spec self w :
  initialize_dispatcher self w
  = (Ok tt, mkWorld (bind_domain self (dispatcher w)) (servers w) (next_id w) (joined w)).
Proof. reflexivity. Qed.

Lemma initialize_spec self a b c d e f w :
  initialize E self a b c d e f w
  = (Ok (object_to_dictionary E
           (VNew (lit "InitializeResult")
              [VNew (lit "ServerCapabilities") []
                 [(lit "textDocumentSync",
                   VAttr (lit "TextDocumentSyncKind") (lit "INCREMENTAL"));
                  (lit "definitionProvider", VBool false);
                  (lit "referencesProvider", VBool false);
                  (lit "documentFormattingProvider", VBool false);
                  (lit "documentRangeFormattingProvider", VBool false);
                  (lit "documentHighlightProvider", VBool false);
                  (lit "hoverProvider", VBool false);
                  (lit "completionProvider", VNone)]] [])),
     mkWorld (bind_domain self (dispatcher w)) (servers w) (next_id w) (joined w)).
Proof. reflexivity. Qed.

Lemma entered_spec self c body w :
  entered self c body w = body (store self (record_call c (servers w self)) w).
Proof. reflexivity. Qed.

Lemma init_spec ins outs w :
  __init__ E ins outs w
  = (Ok (next_id w),
     mkWorld (<[lit "initialize" := H_initialize (next_id w)]> (dispatcher w))
             (<[next_id w := mkServer (ConnectionService E) false false ∅ ins outs []]>
                (servers w))
             (S (next_id w)) (joined w)).
Proof. reflexivity. Qed.

Lemma domain_methods_bound self d m :
  m ∈ domain_methods -> is_Some (bind_domain self d !! m).
Proof.
  unfold domain_methods, bind_domain. rewrite !elem_of_cons, elem_of_nil.
  intros H. repeat (destruct H as [-> | H]; [by simplify_map_eq |]).
  destruct H.
Qed.

Lemma domain_methods_not_initialize m :
  m ∈ domain_methods -> m <> lit "initialize".
Proof.
  unfold domain_methods. rewrite !elem_of_cons, elem_of_nil.
  intros H. repeat (destruct H as [-> | H]; [discriminate |]).
  destruct H.
Qed.

Lemma bind_domain_idempotent self d :
  bind_domain self (bind_domain self d) = bind_domain self d.
Proof.
  apply map_eq. intros k. unfold bind_domain.
  rewrite !lookup_insert. repeat case_decide; reflexivity.
Qed.

(** C4, as the code has it. The dispatch table is one object shared by the
    whole process. For a server constructed while that table binds no name
    other than [initialize] (as it is for the first server of a process), no
    domain method resolves and [initialize] is the only name bound, to the
    new server; once [initialize] has run, every domain method resolves. *)
Theorem handshake_gating (ins outs : str) (w : World) :
  dom (dispatcher w) ⊆ {[ lit "initialize" ]} ->
  let self := next_id w in
  let w1 := (__init__ E ins outs w).2 in
  (forall m, m ∈ domain_methods -> dispatcher w1 !! m = None)
  /\ dom (dispatcher w1) = {[ lit "initialize" ]}
  /\ dispatcher w1 !! lit "initialize" = Some (H_initialize self)
  /\ forall a b c d e f m,
       m ∈ domain_methods ->
       is_Some (dispatcher (initialize E self a b c d e f w1).2 !! m).
Proof.
  intros Hdom self w1. unfold w1, self. rewrite init_spec. cbn [snd dispatcher].
  split; [| split; [| split]].
  - intros m Hm. rewrite lookup_insert_ne
      by (intros Heq; symmetry in Heq; revert Heq; apply domain_methods_not_initialize, Hm).
    apply not_elem_of_dom. intros Hin. apply Hdom in Hin.
    apply elem_of_singleton in Hin. revert Hin. apply domain_methods_not_initialize, Hm.
  - rewrite dom_insert_L, union_comm_L. apply subseteq_union_1_L, Hdom.
  - apply lookup_insert_eq.
  - intros a b c d e f m Hm. rewrite initialize_spec. cbn [snd dispatcher].
    apply domain_methods_bound, Hm.
Qed.

(** C5. A second [initialize] on the same server leaves the dispatch table
    exactly as the first left it, and returns the same result. *)
Theorem initialize_idempotent (self : nat) (w : World)
    (a b c d e f a' b' c' d' e' f' : value) :
  let first := initialize E self a b c d e f w in
  let second := initialize E self a' b' c' d' e' f' first.2 in
  dispatcher second.2 = dispatcher first.2 /\ second.1 = first.1.
Proof.
  cbv zeta. rewrite !initialize_spec. cbn [fst snd dispatcher].
  split; [apply bind_domain_idempotent | reflexivity].
Qed.

(** C9. The result of [initialize], and the state it leaves, do not depend
    on its six parameters; the result does not depend on the server or on
    the state either. *)
Theorem initialize_ignores_parameters (self self' : nat) (w w' : World)
    (a b c d e f a' b' c' d' e' f' : value) :
  initialize E self a b c d e f w = initialize E self a' b' c' d' e' f' w
  /\ (initialize E self a b c d e f w).1 = (initialize E self' a' b' c' d' e' f' w').1.
Proof. rewrite !initialize_spec. split; reflexivity. Qed.

End Handshake.

(** The first server of a process. *)
Lemma handshake_gating_witness :
  dom (dispatcher boot) ⊆ ({[ lit "initialize" ]} : gset str)
  /\ let w1 := (__init__ posix [] [] boot).2 in
     (forall m, m ∈ domain_methods -> dispatcher w1 !! m = None)
     /\ dom (dispatcher w1) = {[ lit "initialize" ]}
     /\ dispatcher w1 !! lit "initialize" = Some (H_initialize 0)
     /\ forall a b c d e f m,
          m ∈ domain_methods ->
          is_Some (dispatcher (initialize posix 0 a b c d e f w1).2 !! m).
Proof.
  assert (dom (dispatcher boot) ⊆ ({[ lit "initialize" ]} : gset str)) as H.
  { cbn [dispatcher boot]. rewrite dom_empty_L. apply empty_subseteq. }
  split; [exact H |].
  exact (handshake_gating posix [] [] boot H).
Defined.

(** C4 as stated fails: a server constructed after another server of the
    process has run [initialize] finds every domain method bound, to the
    other server, although [initialize] never ran on it. *)
Lemma handshake_gating_counterexample :
  let w1 := (__init__ posix [] [] boot).2 in
  let w2 := (initialize posix 0 VNone VNone VNone VNone VNone VNone w1).2 in
  let fresh := __init__ posix [] [] w2 in
  fresh.1 = Ok 1%nat
  /\ history (servers fresh.2 1%nat) = []
  /\ lit "shutdown" ∈ domain_methods
  /\ dispatcher fresh.2 !! lit "shutdown" = Some (H_shutdown 0)
  /\ dispatcher fresh.2 !! lit "shutdown" <> None.
Proof.
  cbv zeta. rewrite !init_spec, initialize_spec. cbn [fst snd dispatcher servers next_id boot].
  split; [reflexivity | split; [reflexivity | split; [| split]]].
  - unfold domain_methods. set_solver.
  - unfold bind_domain. by simplify_map_eq.
  - unfold bind_domain. by simplify_map_eq.
Qed.

(** ** What every method respects *)

Section Keeps.

Context (E : Env) (R : World -> World -> Prop) (HR : StepClosed R).

Lemma keeps_ret {A} (a : A) : keeps R (ret a).
Proof. intros w. apply (step_refl R HR). Qed.

Lemma keeps_raise {A} (e : exn) : keeps R (@raise A e).
Proof. intros w. apply (step_refl R HR). Qed.

Lemma keeps_bind {A B} (m : M A) (k : A -> M B) :
  keeps R m -> (forall a, keeps R (k a)) -> keeps R (bind m k).
Proof.
  intros Hm Hk w. unfold bind. specialize (Hm w).
  destruct (m w) as [[a|e] w1]; cbn [snd] in *.
  - eapply (step_trans R HR); [exact Hm | apply Hk].
  - exact Hm.
Qed.

Lemma keeps_get self : keeps R (get self).
Proof. intros w. apply (step_refl R HR). Qed.

Lemma keeps_setitem name h : keeps R (setitem name h).
Proof. intros w. apply (step_setitem R HR). Qed.

Ltac keeps_step :=
  first
    [ apply keeps_ret | apply keeps_raise | apply keeps_get | apply keeps_setitem
    | apply keeps_bind; [| intros ?] | assumption ].

Lemma keeps_initialize_dispatcher self : keeps R (initialize_dispatcher self).
Proof.
  unfold initialize_dispatcher.
  repeat (apply keeps_bind; [apply keeps_setitem | intros _]).
  apply keeps_setitem.
Qed.

Lemma keeps_initialize self a b c d e f : keeps R (initialize E self a b c d e f).
Proof.
  unfold initialize.
  apply keeps_bind; [apply keeps_initialize_dispatcher | intros _; apply keeps_ret].
Qed.

Lemma keeps_entered_initialize self a b c d e f :
  keeps R (entered self CalledInitialize (initialize E self a b c d e f)).
Proof.
  unfold entered.
  apply keeps_bind; [intros w; apply (step_initialize R HR) | intros _].
  apply keeps_initialize.
Qed.

Lemma keeps_entered_shutdown self :
  keeps R (entered self CalledShutdown (shutdown self)).
Proof. intros w. apply (step_shutdown R HR). Qed.

Lemma keeps_entered_exit self : keeps R (entered self CalledExit (exit self)).
Proof. intros w. apply (step_exit R HR). Qed.

Lemma keeps_join_all ts : keeps R (join_all ts).
Proof.
  induction ts as [|t ts IH]; simpl; [apply keeps_ret |].
  apply keeps_bind; [| intros _; exact IH].
  intros w. apply (step_join R HR).
Qed.

Lemma keeps_wait self : keeps R (wait self).
Proof.
  unfold wait. apply keeps_bind; [apply keeps_get | intros s].
  apply keeps_bind; [apply keeps_join_all | intros _; apply keeps_ret].
Qed.

Lemma keeps_register_thread self t : keeps R (register_thread self t).
Proof.
  unfold register_thread. apply keeps_bind; [| intros _; apply keeps_ret].
  intros w. apply (step_threads R HR).
Qed.

Lemma keeps_write self v : keeps R (write self v).
Proof.
  destruct v; try apply keeps_raise.
  intros w. apply (step_output R HR).
Qed.

Lemma keeps_echo self arg : keeps R (echo self arg).
Proof.
  unfold echo. apply keeps_bind; [apply keeps_write | intros _; apply keeps_ret].
Qed.

Lemma keeps_handle_output self s : keeps R (handle_output E self s).
Proof.
  unfold handle_output. apply keeps_bind; [apply keeps_write | intros _; apply keeps_ret].
Qed.

Lemma keeps_send_event self name params : keeps R (send_event E self name params).
Proof. unfold send_event. apply keeps_handle_output. Qed.

Lemma keeps_read_headers self : keeps R (read_headers self).
Proof.
  unfold read_headers. apply keeps_bind; [apply keeps_get | intros s].
  destruct (read_headers_from ∅ (input_stream s)) as [outcome rest].
  apply keeps_bind.
  - intros w. apply (step_input R HR).
  - intros _. destruct outcome; [apply keeps_ret | apply keeps_raise].
Qed.

Lemma keeps_read_content self n : keeps R (read_content self n).
Proof.
  unfold read_content. apply keeps_bind; [apply keeps_get | intros s].
  destruct (read n (input_stream s)) as [[content rest]|]; [| apply keeps_raise].
  apply keeps_bind; [| intros _; apply keeps_ret].
  intros w. apply (step_input R HR).
Qed.

Lemma keeps_perform_all self actions : keeps R (perform_all E self actions).
Proof.
  induction actions as [|a actions IH]; simpl; [apply keeps_ret |].
  apply keeps_bind; [| intros _; exact IH].
  destruct a; [apply keeps_register_thread | apply keeps_send_event].
Qed.

Lemma keeps_service_request self handler p :
  keeps R (service_request E self handler p).
Proof.
  unfold service_request. apply keeps_bind; [apply keeps_get | intros s].
  destruct (handler (connection_service s) p) as [[service actions] outcome].
  apply keeps_bind; [intros w; apply (step_service R HR) | intros _].
  apply keeps_bind; [apply keeps_perform_all | intros _].
  destruct outcome; [apply keeps_ret | apply keeps_raise].
Qed.

Lemma keeps_call h p : keeps R (call E h p).
Proof.
  destruct h; cbn [call];
    repeat match goal with
           | |- keeps R (match ?x with _ => _ end) => destruct x
           end;
    lazymatch goal with
    | |- keeps R (raise _) => apply keeps_raise
    | |- keeps R (service_request _ _ _ _) => apply keeps_service_request
    | |- keeps R (entered _ CalledInitialize _) => apply keeps_entered_initialize
    | |- keeps R (entered _ CalledShutdown _) => apply keeps_entered_shutdown
    | |- keeps R (entered _ CalledExit _) => apply keeps_entered_exit
    | |- keeps R (echo _ _) => apply keeps_echo
    | |- keeps R (wait _) => apply keeps_wait
    | |- keeps R version => apply keeps_ret
    | |- keeps R (capabilities _ _ _) => apply keeps_ret
    end.
Qed.

Lemma keeps_handle_request r : keeps R (handle_request E r).
Proof.
  intros w. unfold handle_request.
  destruct (dispatcher w !! rq_method r) as [h|]; [| apply (step_refl R HR)].
  pose proof (keeps_call h (rq_params r) w) as H.
  destruct (call E h (rq_params r) w) as [[v|e] w1]; exact H.
Qed.

Lemma keeps_handle_batch rs : keeps R (handle_batch E rs).
Proof.
  induction rs as [|r rs IH]; simpl; [apply keeps_ret |].
  apply keeps_bind; [apply keeps_handle_request | intros o].
  apply keeps_bind; [exact IH | intros l; apply keeps_ret].
Qed.

Lemma keeps_handle body : keeps R (handle E body).
Proof.
  unfold handle. destruct (parse E body); try apply keeps_ret.
  - apply keeps_handle_request.
  - apply keeps_bind; [apply keeps_handle_batch | intros l; apply keeps_ret].
Qed.

Lemma keeps_next_response self : keeps R (next_response E self).
Proof.
  unfold next_response. apply keeps_bind; [apply keeps_read_headers | intros headers].
  apply keeps_bind;
    [destruct (headers !! lit "Content-Length"); [apply keeps_ret | apply keeps_raise] |].
  intros v. apply keeps_bind;
    [destruct (int v); [apply keeps_ret | apply keeps_raise] |].
  intros n. apply keeps_bind; [apply keeps_read_content | intros body].
  apply keeps_handle.
Qed.

Lemma keeps_loop_body self : keeps R (loop_body E self).
Proof.
  unfold loop_body. apply keeps_bind; [apply keeps_next_response | intros response].
  apply keeps_bind; [apply keeps_get | intros s].
  destruct (should_exit s); [apply keeps_ret |].
  destruct response; [| apply keeps_ret].
  apply keeps_bind; [apply keeps_handle_output | intros _; apply keeps_ret].
Qed.

Lemma keeps_handle_input turns self w : R w (handle_input E turns self w).2.
Proof.
  revert w. induction turns as [|turns IH]; intros w; simpl.
  - apply (step_refl R HR).
  - pose proof (keeps_loop_body self w) as H.
    destruct (loop_body E self w) as [[[code|]|e] w1]; cbn [snd] in *; try exact H.
    eapply (step_trans R HR); [exact H | apply IH].
Qed.

End Keeps.

(** ** Lifecycle flags *)

Lemma servers_entered_shutdown self w i :
  servers (entered self CalledShutdown (shutdown self) w).2 i
  = if decide (self = i)
    then set_is_shutdown true (record_call CalledShutdown (servers w self))
    else servers w i.
Proof.
  unfold entered, shutdown, bind, update, ret. cbn [snd].
  rewrite !servers_store. destruct (decide (self = i)) as [->|]; [| reflexivity].
  rewrite decide_True by reflexivity. reflexivity.
Qed.

Lemma servers_entered_exit self w i :
  servers (entered self CalledExit (exit self) w).2 i
  = if decide (self = i)
    then set_should_exit true (record_call CalledExit (servers w self))
    else servers w i.
Proof.
  unfold entered, exit, bind, update, ret. cbn [snd].
  rewrite !servers_store. destruct (decide (self = i)) as [->|]; [| reflexivity].
  rewrite decide_True by reflexivity. reflexivity.
Qed.

Lemma flags_kept_closed : StepClosed flags_kept.
Proof.
  constructor.
  - intros w i. split; auto.
  - intros w1 w2 w3 H12 H23 i. destruct (H12 i), (H23 i). split; auto.
  - intros name h w i. split; auto.
  - intros t w i. split; auto.
  - intros self w i. rewrite servers_store.
    destruct (decide (self = i)) as [->|]; split; auto.
  - intros self w i. rewrite servers_entered_shutdown.
    destruct (decide (self = i)) as [->|]; split; auto.
  - intros self w i. rewrite servers_entered_exit.
    destruct (decide (self = i)) as [->|]; split; auto.
  - intros self t w i. rewrite servers_store.
    destruct (decide (self = i)) as [->|]; split; auto.
  - intros self o w i. rewrite servers_store.
    destruct (decide (self = i)) as [->|]; split; auto.
  - intros self o w i. rewrite servers_store.
    destruct (decide (self = i)) as [->|]; split; auto.
  - intros self c w i. rewrite servers_store.
    destruct (decide (self = i)) as [->|]; split; auto.
Qed.

Lemma recorded_after_closed : StepClosed recorded_after.
Proof.
  constructor; unfold recorded_after.
  - auto.
  - auto.
  - intros name h w H. exact H.
  - intros t w H. exact H.
  - intros self w H i. rewrite servers_store.
    destruct (decide (self = i)) as [->|]; [| apply H].
    destruct (H i) as [H1 H2]. cbn [is_shutdown should_exit history record_call].
    rewrite !elem_of_app, !list_elem_of_singleton. split; [rewrite H1 | rewrite H2];
      intuition congruence.
  - intros self w H i. rewrite servers_entered_shutdown.
    destruct (decide (self = i)) as [->|]; [| apply H].
    destruct (H i) as [H1 H2].
    cbn [is_shutdown should_exit history record_call set_is_shutdown].
    rewrite !elem_of_app, !list_elem_of_singleton. split; [| rewrite H2];
      intuition congruence.
  - intros self w H i. rewrite servers_entered_exit.
    destruct (decide (self = i)) as [->|]; [| apply H].
    destruct (H i) as [H1 H2].
    cbn [is_shutdown should_exit history record_call set_should_exit].
    rewrite !elem_of_app, !list_elem_of_singleton. split; [rewrite H1 |];
      intuition congruence.
  - intros self t w H i. rewrite servers_store.
    destruct (decide (self = i)) as [->|]; apply H.
  - intros self o w H i. rewrite servers_store.
    destruct (decide (self = i)) as [->|]; apply H.
  - intros self o w H i. rewrite servers_store.
    destruct (decide (self = i)) as [->|]; apply H.
  - intros self c w H i. rewrite servers_store.
    destruct (decide (self = i)) as [->|]; apply H.
Qed.

(** The methods called directly, not through the table. *)
Lemma flags_kept_shutdown self : keeps flags_kept (shutdown self).
Proof.
  intros w i. unfold shutdown, bind, update, ret. cbn [snd]. rewrite servers_store.
  destruct (decide (self = i)) as [->|]; split; auto.
Qed.

Lemma flags_kept_exit self : keeps flags_kept (exit self).
Proof.
  intros w i. unfold exit, bind, update, ret. cbn [snd]. rewrite servers_store.
  destruct (decide (self = i)) as [->|]; split; auto.
Qed.

Lemma lifecycle_recorded_boot : lifecycle_recorded boot.
Proof.
  intros i. cbn. rewrite !elem_of_nil. split; split; (discriminate || tauto).
Qed.

Lemma lifecycle_recorded_init E ins outs w :
  lifecycle_recorded w -> lifecycle_recorded (__init__ E ins outs w).2.
Proof.
  intros H i. rewrite init_spec. cbn [snd servers].
  destruct (decide (next_id w = i)) as [->|Hne].
  - rewrite fn_lookup_insert. cbn. rewrite !elem_of_nil.
    split; split; (discriminate || tauto).
  - rewrite fn_lookup_insert_ne by exact Hne. apply H.
Qed.

(** C10. The flags start false at construction; [shutdown] and [exit]
    assign [True]; and no method of the server, nor any number of turns of
    the server loop, takes a flag that is set back to false, on any server
    of the process. *)
Theorem flags_monotone (E : Env) :
  (forall ins outs w,
     is_shutdown (servers (__init__ E ins outs w).2 (next_id w)) = false
     /\ should_exit (servers (__init__ E ins outs w).2 (next_id w)) = false)
  /\ (forall self w,
        is_shutdown (servers (shutdown self w).2 self) = true
        /\ should_exit (servers (exit self w).2 self) = true)
  /\ (forall self a b c d e f, keeps flags_kept (initialize E self a b c d e f))
  /\ (forall self, keeps flags_kept (shutdown self))
  /\ (forall self, keeps flags_kept (exit self))
  /\ (forall self, keeps flags_kept (wait self))
  /\ (forall self thread, keeps flags_kept (register_thread self thread))
  /\ (forall self arg, keeps flags_kept (echo self arg))
  /\ (forall self name params, keeps flags_kept (send_event E self name params))
  /\ (forall self s, keeps flags_kept (handle_output E self s))
  /\ (forall turns self w, flags_kept w (handle_input E turns self w).2).
Proof.
  pose proof flags_kept_closed as HR.
  repeat match goal with |- _ /\ _ => split end.
  - intros ins outs w. rewrite init_spec. cbn [snd servers].
    rewrite fn_lookup_insert. split; reflexivity.
  - intros self w. unfold shutdown, exit, bind, update, ret. cbn [snd].
    rewrite !servers_store_eq. split; reflexivity.
  - intros. apply keeps_initialize, HR.
  - intros. apply flags_kept_shutdown.
  - intros. apply flags_kept_exit.
  - intros. apply keeps_wait, HR.
  - intros. apply keeps_register_thread, HR.
  - intros. apply keeps_echo, HR.
  - intros. apply keeps_send_event, HR.
  - intros. apply keeps_handle_output, HR.
  - intros. apply keeps_handle_input, HR.
Qed.

(** ** The server loop *)

Section Loop.

Context (E : Env).

(** Turns already taken can be set apart. *)
Lemma handle_input_more k n self w0 w :
  handle_input E k self w0 = (Running, w) ->
  handle_input E (k + n) self w0 = handle_input E n self w.
Proof.
  revert w0. induction k as [|k IH]; intros w0; simpl.
  - intros [= ->]. reflexivity.
  - destruct (loop_body E self w0) as [[[code|]|e] w1]; try discriminate.
    apply IH.
Qed.

Lemma lifecycle_recorded_running k self w0 w :
  lifecycle_recorded w0 ->
  handle_input E k self w0 = (Running, w) ->
  lifecycle_recorded w.
Proof.
  intros H0 Hrun.
  pose proof (keeps_handle_input E recorded_after recorded_after_closed k self w0) as H.
  rewrite Hrun in H. exact (H H0).
Qed.

(** The turn in which the flag is found set. *)
Lemma loop_body_exits self w response w1 :
  next_response E self w = (Ok response, w1) ->
  should_exit (servers w1 self) = true ->
  loop_body E self w = (Ok (Some (if is_shutdown (servers w1 self) then 0 else 1)), w1).
Proof.
  intros Hnext Hexit. unfold loop_body, bind, get. rewrite Hnext, Hexit. reflexivity.
Qed.

(** C1. Exit code contract. The history of a server is a record that the
    dispatching layer keeps, at the point where it enters [shutdown] or
    [exit]; the methods themselves only assign the flags. Take a run of the
    server loop from a state in which the flags agree with that record.
    When, after some turns, a frame has been processed and [should_exit] is
    found set, the loop ends there with [sys.exit]: with code 0 if
    [shutdown] has been entered on this server, which is when [is_shutdown]
    is set, and with code 1 if it has not; and [exit] has been entered. *)
Theorem exit_code_contract (self k turns : nat) (w0 w w1 : World)
    (response : option Response) :
  lifecycle_recorded w0 ->
  handle_input E k self w0 = (Running, w) ->
  next_response E self w = (Ok response, w1) ->
  should_exit (servers w1 self) = true ->
  handle_input E (k + S turns) self w0
  = (Exited (if is_shutdown (servers w1 self) then 0 else 1), w1)
  /\ (is_shutdown (servers w1 self) = true <-> CalledShutdown ∈ history (servers w1 self))
  /\ (CalledShutdown ∈ history (servers w1 self) ->
      handle_input E (k + S turns) self w0 = (Exited 0, w1))
  /\ (CalledShutdown ∉ history (servers w1 self) ->
      handle_input E (k + S turns) self w0 = (Exited 1, w1))
  /\ CalledExit ∈ history (servers w1 self).
Proof.
  intros H0 Hrun Hnext Hexit.
  assert (lifecycle_recorded w1) as H1.
  { pose proof (keeps_next_response E recorded_after recorded_after_closed self w) as H.
    rewrite Hnext in H. apply H. eapply lifecycle_recorded_running; eassumption. }
  assert (handle_input E (k + S turns) self w0
          = (Exited (if is_shutdown (servers w1 self) then 0 else 1), w1)) as Hcode.
  { rewrite (handle_input_more _ _ _ _ _ Hrun). simpl.
    rewrite (loop_body_exits _ _ _ _ Hnext Hexit). reflexivity. }
  destruct (H1 self) as [Hshutdown Hexited].
  split; [| split; [| split; [| split]]].
  - exact Hcode.
  - exact Hshutdown.
  - intros Hin. rewrite Hcode. apply Hshutdown in Hin. rewrite Hin. reflexivity.
  - intros Hout. rewrite Hcode.
    destruct (is_shutdown (servers w1 self)); [| reflexivity].
    destruct Hout. apply Hshutdown. reflexivity.
  - apply Hexited, Hexit.
Qed.

(** The turn that meets a header block without a usable length. *)
Lemma loop_body_framing_error self w headers rest :
  read_headers_from ∅ (input_stream (servers w self)) = (Ok headers, rest) ->
  (headers !! lit "Content-Length" = None
   \/ exists v, headers !! lit "Content-Length" = Some v /\ int v = None) ->
  exists e,
    (e = KeyError (lit "Content-Length") \/ e = ValueError)
    /\ loop_body E self w
       = (Raise e, store self (set_input_stream rest (servers w self)) w).
Proof.
  intros Hread Hbad.
  unfold loop_body, next_response, read_headers, bind, get, update, ret.
  rewrite Hread. destruct Hbad as [Hnone | (v & Hsome & Hint)].
  - exists (KeyError (lit "Content-Length")). rewrite Hnone. split; [left |]; reflexivity.
  - exists ValueError. rewrite Hsome. unfold raise. rewrite Hint.
    split; [right |]; reflexivity.
Qed.

(** C6. A header block that has no [Content-Length] entry, or one whose
    value [int] refuses, ends the loop: [KeyError] or [ValueError] leaves
    [handle_input] however many turns it is given, no handler is run,
    nothing is written, and what follows the block in the stream is left
    unread. *)
Theorem framing_error_is_fatal (self k turns : nat) (w0 w : World)
    (headers : gmap str str) (rest : str) :
  handle_input E k self w0 = (Running, w) ->
  read_headers_from ∅ (input_stream (servers w self)) = (Ok headers, rest) ->
  (headers !! lit "Content-Length" = None
   \/ exists v, headers !! lit "Content-Length" = Some v /\ int v = None) ->
  exists e,
    (e = KeyError (lit "Content-Length") \/ e = ValueError)
    /\ handle_input E (k + S turns) self w0
       = (Raised e, store self (set_input_stream rest (servers w self)) w).
Proof.
  intros Hrun Hread Hbad.
  destruct (loop_body_framing_error self w headers rest Hread Hbad) as (e & He & Hbody).
  exists e. split; [exact He |].
  rewrite (handle_input_more _ _ _ _ _ Hrun). simpl. rewrite Hbody. reflexivity.
Qed.

End Loop.

(** A client that sends [initialize], [shutdown] and [exit] to the first
    server of a POSIX process: the third turn ends the loop with code 0. *)
Lemma exit_code_contract_witness :
  let w0 := (__init__ posix
               (client_frame (request_text (lit "initialize"))
                ++ client_frame (request_text (lit "shutdown"))
                ++ client_frame (request_text (lit "exit"))) [] boot).2 in
  let w := (handle_input posix 2 0 w0).2 in
  let w1 := (next_response posix 0 w).2 in
  lifecycle_recorded w0
  /\ handle_input posix 2 0 w0 = (Running, w)
  /\ next_response posix 0 w = (Ok (Some (Result (VInt 1) VNone)), w1)
  /\ should_exit (servers w1 0%nat) = true
  /\ history (servers w1 0%nat) = [CalledInitialize; CalledShutdown; CalledExit]
  /\ is_shutdown (servers w1 0%nat) = true
  /\ handle_input posix (2 + 1) 0 w0 = (Exited 0, w1).
Proof.
  cbv zeta.
  set (w0 := (__init__ posix _ [] boot).2).
  assert (lifecycle_recorded w0) as H0
    by (apply lifecycle_recorded_init, lifecycle_recorded_boot).
  assert (handle_input posix 2 0 w0 = (Running, (handle_input posix 2 0 w0).2)) as H1
    by (vm_compute; reflexivity).
  assert (next_response posix 0 (handle_input posix 2 0 w0).2
          = (Ok (Some (Result (VInt 1) VNone)),
             (next_response posix 0 (handle_input posix 2 0 w0).2).2)) as H2
    by (vm_compute; reflexivity).
  assert (should_exit (servers (next_response posix 0 (handle_input posix 2 0 w0).2).2 0%nat)
          = true) as H3 by (vm_compute; reflexivity).
  assert (history (servers (next_response posix 0 (handle_input posix 2 0 w0).2).2 0%nat)
          = [CalledInitialize; CalledShutdown; CalledExit]) as H4
    by (vm_compute; reflexivity).
  split; [exact H0 | split; [exact H1 | split; [exact H2 | split; [exact H3 |]]]].
  split; [exact H4 |].
  destruct (exit_code_contract posix 0 2 0 w0 _ _ _ H0 H1 H2 H3)
    as (_ & Hflag & Hzero & _ & _).
  assert (CalledShutdown
          ∈ history (servers (next_response posix 0 (handle_input posix 2 0 w0).2).2 0%nat))
    as Hin by (rewrite H4; apply list_elem_of_further, list_elem_of_here).
  split; [apply Hflag, Hin | apply Hzero, Hin].
Defined.

(** A client that sends [initialize] and then [exit], with no [shutdown]
    between them: the second turn ends the loop with code 1. *)
Lemma exit_without_shutdown :
  let w0 := (__init__ posix
               (client_frame (request_text (lit "initialize"))
                ++ client_frame (request_text (lit "exit"))) [] boot).2 in
  (handle_input posix 2 0 w0).1 = Exited 1
  /\ history (servers (handle_input posix 2 0 w0).2 0%nat)
     = [CalledInitialize; CalledExit]
  /\ is_shutdown (servers (handle_input posix 2 0 w0).2 0%nat) = false.
Proof. vm_compute. repeat split. Qed.

(** A header block that names no length, in front of a well-formed frame:
    the loop ends with [KeyError] and the frame is left unread. *)
Lemma framing_error_is_fatal_witness :
  let w := (__init__ posix
              (lit "Content-Type: text" ++ [CR; LF; CR; LF]
               ++ client_frame (request_text (lit "initialize"))) [] boot).2 in
  let headers : gmap str str := {[ lit "Content-Type" := lit "text" ]} in
  let rest := client_frame (request_text (lit "initialize")) in
  handle_input posix 0 0 w = (Running, w)
  /\ read_headers_from ∅ (input_stream (servers w 0%nat)) = (Ok headers, rest)
  /\ (headers !! lit "Content-Length" = None
      \/ exists v, headers !! lit "Content-Length" = Some v /\ int v = None)
  /\ exists e,
       (e = KeyError (lit "Content-Length") \/ e = ValueError)
       /\ handle_input posix (0 + 3) 0 w
          = (Raised e, store 0 (set_input_stream rest (servers w 0%nat)) w).
Proof.
  cbv zeta.
  set (w := (__init__ posix _ [] boot).2).
  assert (handle_input posix 0 0 w = (Running, w)) as H1 by reflexivity.
  assert (read_headers_from ∅ (input_stream (servers w 0%nat))
          = (Ok ({[ lit "Content-Type" := lit "text" ]} : gmap str str),
             client_frame (request_text (lit "initialize")))) as H2
    by (vm_compute; reflexivity).
  assert (({[ lit "Content-Type" := lit "text" ]} : gmap str str) !! lit "Content-Length" = None
          \/ exists v, ({[ lit "Content-Type" := lit "text" ]} : gmap str str)
                         !! lit "Content-Length" = Some v /\ int v = None) as H3
    by (left; vm_compute; reflexivity).
  split; [exact H1 | split; [exact H2 | split; [exact H3 |]]].
  exact (framing_error_is_fatal posix 0 0 2 w w _ _ H1 H2 H3).
Defined.

(** A length that opens with the separator US, which [strip] leaves inside
    the line and [int] refuses, and a length too large for the stream: the
    loop ends with [ValueError], and with [OverflowError]. *)
Lemma unusable_lengths_are_fatal :
  let w := (__init__ posix
              (lit "Content-Length: " ++ ascii_of_nat 31 :: lit "46"
               ++ [CR; LF; CR; LF]) [] boot).2 in
  let w' := (__init__ posix
               (lit "Content-Length: 9223372036854775808"
                ++ [CR; LF; CR; LF]) [] boot).2 in
  (handle_input posix 1 0 w).1 = Raised ValueError
  /\ (handle_input posix 1 0 w').1 = Raised OverflowError.
Proof. vm_compute. split; reflexivity. Qed.

(** ** Header lines *)

Lemma split_name_value name value tail :
  contains2 ":" " " name = false ->
  contains2 ":" " " value = false ->
  tail = [] \/ (exists t, tail = lit ": " ++ t) ->
  exists more,
    split_colon_space (name ++ lit ": " ++ value ++ tail) = name :: value :: more.
Proof.
  intros Hname Hvalue Htail. unfold split_colon_space.
  change (name ++ lit ": " ++ value ++ tail)
    with (name ++ ":"%char :: " "%char :: (value ++ tail)).
  rewrite (split2_before_separator _ _ Hname).
  destruct Htail as [-> | (t & ->)].
  - exists []. rewrite app_nil_r, (contains2_split2 _ _ _ Hvalue). reflexivity.
  - exists (split2 ":" " " t).
    change (value ++ lit ": " ++ t) with (value ++ ":"%char :: " "%char :: t).
    rewrite (split2_before_separator _ _ Hvalue). reflexivity.
Qed.

(** C8, as the code has it. A header line is split at every occurrence
    of the separator: the text before the first separator is the name, and
    the entry stored under it is the text between the first separator and
    the second, or the end of the line when there is no second; what follows
    a second separator is not part of the value. *)
Theorem header_value_up_to_second_separator
    (headers : gmap str str) (stream raw rest name value tail : str) :
  readline stream = (raw, rest) ->
  strip raw = name ++ lit ": " ++ value ++ tail ->
  contains2 ":" " " name = false ->
  contains2 ":" " " value = false ->
  tail = [] \/ (exists t, tail = lit ": " ++ t) ->
  read_headers_from headers stream
  = read_headers_from (<[name := value]> headers) rest.
Proof.
  intros Hread Hstrip Hname Hvalue Htail.
  rewrite (read_headers_from_step headers stream), Hread. cbv zeta.
  rewrite Hstrip.
  rewrite bool_decide_eq_false_2 by (destruct name; discriminate).
  destruct (split_name_value name value tail Hname Hvalue Htail) as (more & ->).
  reflexivity.
Qed.

(** The line [X: a: b]: the entry stored under [X] is [a]. *)
Lemma header_value_up_to_second_separator_witness :
  let stream := lit "X: a: b" ++ [CR; LF; CR; LF] in
  readline stream = (lit "X: a: b" ++ [CR; LF], [CR; LF])
  /\ strip (lit "X: a: b" ++ [CR; LF]) = lit "X" ++ lit ": " ++ lit "a" ++ lit ": b"
  /\ contains2 ":" " " (lit "X") = false
  /\ contains2 ":" " " (lit "a") = false
  /\ (lit ": b" = [] \/ (exists t, lit ": b" = lit ": " ++ t))
  /\ read_headers_from ∅ stream
     = read_headers_from (<[lit "X" := lit "a"]> ∅) [CR; LF].
Proof.
  cbv zeta.
  assert (lit ": b" = [] \/ (exists t, lit ": b" = lit ": " ++ t)) as H5
    by (right; exists (lit "b"); reflexivity).
  split; [reflexivity | split; [reflexivity | split; [reflexivity |
    split; [reflexivity | split; [exact H5 |]]]]].
  exact (header_value_up_to_second_separator ∅
           (lit "X: a: b" ++ [CR; LF; CR; LF]) (lit "X: a: b" ++ [CR; LF]) [CR; LF]
           (lit "X") (lit "a") (lit ": b")
           eq_refl eq_refl eq_refl eq_refl H5).
Defined.

(** C8 as stated fails: for the line [X: a: b] the value stored under [X]
    is [a], not everything after the first separator. *)
Lemma first_separator_counterexample :
  read_headers_from ∅ (lit "X: a: b" ++ [CR; LF; CR; LF])
  = (Ok {[ lit "X" := lit "a" ]}, [])
  /\ ({[ lit "X" := lit "a" ]} : gmap str str) !! lit "X" <> Some (lit "a: b").
Proof.
  split; [vm_compute; reflexivity |].
  rewrite lookup_singleton_eq. discriminate.
Qed.

(** * Further properties of the code *)

(** ** The decoder on arbitrary input *)

Lemma readline_app stream raw rest :
  readline stream = (raw, rest) -> stream = raw ++ rest.
Proof.
  revert raw rest. induction stream as [|c s IH]; intros raw rest; simpl.
  - intros [= <- <-]. reflexivity.
  - destruct (Ascii.eqb c LF); [intros [= <- <-]; reflexivity |].
    destruct (readline s) as [l r]. intros [= <- <-].
    simpl. rewrite (IH l r eq_refl) at 1. reflexivity.
Qed.

Lemma strip_nil_raw : strip [] = [].
Proof. reflexivity. Qed.

(** What [read_headers_from] leaves is the end of what it was given. *)
Lemma read_headers_from_suffix headers stream :
  forall outcome rest,
    read_headers_from headers stream = (outcome, rest) ->
    exists consumed, stream = consumed ++ rest.
Proof.
  funelim (read_headers_from headers stream); intros outcome rest' Hrun.
  - injection Hrun as _ <-. exists raw. apply readline_app, Hread.
  - injection Hrun as _ <-. exists raw. apply readline_app, Hread.
  - injection Hrun as _ <-. exists raw. apply readline_app, Hread.
  - match goal with
    | IH : forall o r, read_headers_from _ _ = _ -> _ |- _ =>
        destruct (IH _ _ Hrun) as (consumed & Hc)
    end.
    exists (raw ++ consumed). rewrite <- app_assoc, <- Hc.
    apply readline_app, Hread.
Qed.

(** A block that yields an entry has taken at least one character. *)
Lemma read_headers_from_shrinks headers stream :
  forall headers' rest,
    read_headers_from headers stream = (Ok headers', rest) ->
    headers' = headers \/ (length rest < length stream)%nat.
Proof.
  funelim (read_headers_from headers stream); intros headers' rest' Hrun;
    try discriminate.
  - injection Hrun as <- <-. left; reflexivity.
  - right.
    assert (length rest < length stream)%nat as Hlt.
    { pose proof (readline_length _ _ _ Hread) as Hlen.
      destruct raw; [discriminate Hline |]. simpl in Hlen. lia. }
    match goal with
    | IH : forall h r, read_headers_from _ _ = _ -> _ |- _ =>
        destruct (IH _ _ Hrun) as [_ | Hlt']
    end.
    + destruct (read_headers_from_suffix _ _ _ _ Hrun) as (consumed & ->).
      rewrite length_app in Hlt. lia.
    + lia.
Qed.

Lemma loop_body_decoder_error E self w e rest :
  read_headers_from ∅ (input_stream (servers w self)) = (Raise e, rest) ->
  loop_body E self w
  = (Raise e, store self (set_input_stream rest (servers w self)) w).
Proof.
  intros Hread. unfold loop_body, next_response, read_headers, bind, get, update, ret.
  rewrite Hread. reflexivity.
Qed.

Lemma read_headers_from_no_separator headers stream raw rest :
  readline stream = (raw, rest) ->
  strip raw <> [] ->
  contains2 ":" " " (strip raw) = false ->
  read_headers_from headers stream = (Raise IndexError, rest).
Proof.
  intros Hread Hne Hno.
  rewrite read_headers_from_step, Hread. cbv zeta.
  rewrite bool_decide_eq_false_2 by exact Hne.
  unfold split_colon_space. rewrite (contains2_split2 _ _ _ Hno). reflexivity.
Qed.

(** X1. A header line that is not blank and holds no separator makes the
    decoder raise [IndexError], wherever it stands in the block, with the
    stream read up to the end of that line; as the first line of a block it
    ends the server loop with that exception. *)
Theorem line_without_separator_is_fatal (E : Env) (self turns : nat) (w : World)
    (headers : gmap str str) (stream raw rest : str) :
  readline stream = (raw, rest) ->
  strip raw <> [] ->
  contains2 ":" " " (strip raw) = false ->
  read_headers_from headers stream = (Raise IndexError, rest)
  /\ (input_stream (servers w self) = stream ->
      handle_input E (S turns) self w
      = (Raised IndexError, store self (set_input_stream rest (servers w self)) w)).
Proof.
  intros Hread Hne Hno. split.
  - apply (read_headers_from_no_separator headers stream raw rest); assumption.
  - intros Hin. simpl. rewrite (loop_body_decoder_error E self w IndexError rest).
    + reflexivity.
    + rewrite Hin. apply (read_headers_from_no_separator ∅ stream raw rest); assumption.
Qed.

(** The header [Content-Length:5], without the blank after the colon. *)
Lemma line_without_separator_is_fatal_witness :
  let stream := lit "Content-Length:5" ++ [CR; LF; CR; LF] ++ lit "hello" in
  let w := (__init__ posix stream [] boot).2 in
  let rest := [CR; LF] ++ lit "hello" in
  readline stream = (lit "Content-Length:5" ++ [CR; LF], rest)
  /\ strip (lit "Content-Length:5" ++ [CR; LF]) <> []
  /\ contains2 ":" " " (strip (lit "Content-Length:5" ++ [CR; LF])) = false
  /\ read_headers_from ∅ stream = (Raise IndexError, rest)
  /\ (input_stream (servers w 0%nat) = stream ->
      handle_input posix 1 0 w
      = (Raised IndexError, store 0 (set_input_stream rest (servers w 0%nat)) w)).
Proof.
  cbv zeta.
  assert (strip (lit "Content-Length:5" ++ [CR; LF]) <> []) as H2 by discriminate.
  split; [reflexivity | split; [exact H2 | split; [reflexivity |]]].
  exact (line_without_separator_is_fatal posix 0 0 _ ∅
           (lit "Content-Length:5" ++ [CR; LF; CR; LF] ++ lit "hello")
           (lit "Content-Length:5" ++ [CR; LF]) ([CR; LF] ++ lit "hello")
           eq_refl H2 eq_refl).
Defined.

Lemma read_headers_from_blank headers stream raw rest :
  readline stream = (raw, rest) -> strip raw = [] ->
  read_headers_from headers stream = (Ok headers, rest).
Proof.
  intros Hread Hblank. rewrite read_headers_from_step, Hread. cbv zeta.
  rewrite Hblank. reflexivity.
Qed.

(** X2. When the first line the loop reads is blank, and in particular when
    the input stream is at its end, the header block is empty and
    [handle_input] ends with [KeyError('Content-Length')]: no handler has
    run and nothing has been written. *)
Theorem blank_line_or_end_of_stream_is_fatal (E : Env) (self turns : nat)
    (w : World) (raw rest : str) :
  readline (input_stream (servers w self)) = (raw, rest) ->
  strip raw = [] ->
  handle_input E (S turns) self w
  = (Raised (KeyError (lit "Content-Length")),
     store self (set_input_stream rest (servers w self)) w).
Proof.
  intros Hread Hblank. simpl.
  unfold loop_body, next_response, read_headers, bind, get, update, ret.
  rewrite (read_headers_from_blank _ _ _ _ Hread Hblank). reflexivity.
Qed.

(** A server whose input stream is at its end. *)
Lemma blank_line_or_end_of_stream_is_fatal_witness :
  let w := (__init__ windows [] [] boot).2 in
  readline (input_stream (servers w 0%nat)) = ([], [])
  /\ strip [] = []
  /\ handle_input windows 5 0 w
     = (Raised (KeyError (lit "Content-Length")),
        store 0 (set_input_stream [] (servers w 0%nat)) w).
Proof.
  cbv zeta. split; [reflexivity | split; [reflexivity |]].
  exact (blank_line_or_end_of_stream_is_fatal windows 0 4
           (__init__ windows [] [] boot).2 [] []
           (eq_refl : readline (input_stream (servers (__init__ windows [] [] boot).2 0%nat))
                      = ([], []))
           (eq_refl : strip [] = [])).
Defined.


Lemma read_headers_from_entry headers stream raw rest name value :
  readline stream = (raw, rest) ->
  strip raw = name ++ lit ": " ++ value ->
  contains2 ":" " " name = false ->
  contains2 ":" " " value = false ->
  read_headers_from headers stream
  = read_headers_from (<[name := value]> headers) rest.
Proof.
  intros Hread Hstrip Hname Hvalue.
  rewrite (read_headers_from_step headers stream), Hread. cbv zeta.
  rewrite Hstrip.
  rewrite bool_decide_eq_false_2 by (destruct name; discriminate).
  destruct (split_name_value name value [] Hname Hvalue (or_introl eq_refl))
    as (more & Hsplit).
  rewrite app_nil_r in Hsplit. rewrite Hsplit. reflexivity.
Qed.

(** X4. A header name given twice keeps the value given last: the second
    line overwrites the entry of the first. *)
Theorem repeated_header_last_wins (headers : gmap str str)
    (stream raw1 middle raw2 rest name value1 value2 : str) :
  readline stream = (raw1, middle) ->
  strip raw1 = name ++ lit ": " ++ value1 ->
  readline middle = (raw2, rest) ->
  strip raw2 = name ++ lit ": " ++ value2 ->
  contains2 ":" " " name = false ->
  contains2 ":" " " value1 = false ->
  contains2 ":" " " value2 = false ->
  read_headers_from headers stream
  = read_headers_from (<[name := value2]> headers) rest.
Proof.
  intros H1 S1 H2 S2 Hname Hv1 Hv2.
  rewrite (read_headers_from_entry _ _ _ _ _ _ H1 S1 Hname Hv1).
  rewrite (read_headers_from_entry _ _ _ _ _ _ H2 S2 Hname Hv2).
  rewrite insert_insert_eq. reflexivity.
Qed.

(** Two [Content-Length] lines: the frame has the length of the second. *)
Lemma repeated_header_last_wins_witness :
  let stream := lit "Content-Length: 1" ++ [LF] ++ lit "Content-Length: 2" ++ [LF; LF] in
  readline stream = (lit "Content-Length: 1" ++ [LF], lit "Content-Length: 2" ++ [LF; LF])
  /\ strip (lit "Content-Length: 1" ++ [LF]) = lit "Content-Length" ++ lit ": " ++ lit "1"
  /\ readline (lit "Content-Length: 2" ++ [LF; LF]) = (lit "Content-Length: 2" ++ [LF], [LF])
  /\ strip (lit "Content-Length: 2" ++ [LF]) = lit "Content-Length" ++ lit ": " ++ lit "2"
  /\ contains2 ":" " " (lit "Content-Length") = false
  /\ contains2 ":" " " (lit "1") = false
  /\ contains2 ":" " " (lit "2") = false
  /\ read_headers_from ∅ stream
     = read_headers_from (<[lit "Content-Length" := lit "2"]> ∅) [LF].
Proof.
  cbv zeta. repeat (split; [reflexivity |]).
  exact (repeated_header_last_wins ∅
           (lit "Content-Length: 1" ++ [LF] ++ lit "Content-Length: 2" ++ [LF; LF])
           (lit "Content-Length: 1" ++ [LF]) (lit "Content-Length: 2" ++ [LF; LF])
           (lit "Content-Length: 2" ++ [LF]) [LF]
           (lit "Content-Length") (lit "1") (lit "2")
           eq_refl eq_refl eq_refl eq_refl eq_refl eq_refl eq_refl).
Defined.

(** ** What a run can only add to *)

Section Progresses.

Context (E : Env) (R : World -> World -> Prop) (HR : Progress R).

Lemma advance_ret {A} (a : A) : keeps R (ret a).
Proof. intros w. apply (progress_refl R HR). Qed.

Lemma advance_raise {A} (e : exn) : keeps R (@raise A e).
Proof. intros w. apply (progress_refl R HR). Qed.

Lemma advance_bind {A B} (m : M A) (k : A -> M B) :
  keeps R m -> (forall a, keeps R (k a)) -> keeps R (bind m k).
Proof.
  intros Hm Hk w. unfold bind. specialize (Hm w).
  destruct (m w) as [[a|e] w1]; cbn [snd] in *; [| exact Hm].
  eapply (progress_trans R HR); [exact Hm | apply Hk].
Qed.

Lemma advance_get self : keeps R (get self).
Proof. intros w. apply (progress_refl R HR). Qed.

Lemma advance_initialize self a b c d e f : keeps R (initialize E self a b c d e f).
Proof.
  unfold initialize, initialize_dispatcher.
  apply advance_bind; [| intros _; apply advance_ret].
  repeat (apply advance_bind; [intros w; apply (progress_setitem R HR) | intros _]).
  intros w; apply (progress_setitem R HR).
Qed.

Lemma advance_entered_initialize self a b c d e f :
  keeps R (entered self CalledInitialize (initialize E self a b c d e f)).
Proof.
  unfold entered.
  apply advance_bind; [intros w; apply (progress_initialize R HR) | intros _].
  apply advance_initialize.
Qed.

Lemma advance_entered_shutdown self :
  keeps R (entered self CalledShutdown (shutdown self)).
Proof. intros w. apply (progress_shutdown R HR). Qed.

Lemma advance_entered_exit self : keeps R (entered self CalledExit (exit self)).
Proof. intros w. apply (progress_exit R HR). Qed.

Lemma advance_wait self : keeps R (wait self).
Proof.
  unfold wait. apply advance_bind; [apply advance_get | intros s].
  apply advance_bind; [| intros _; apply advance_ret].
  induction (elements (threads s)) as [|t ts IH]; simpl; [apply advance_ret |].
  apply advance_bind; [intros w; apply (progress_join R HR) | intros _; exact IH].
Qed.

Lemma advance_register_thread self t : keeps R (register_thread self t).
Proof.
  unfold register_thread. apply advance_bind; [| intros _; apply advance_ret].
  intros w. apply (progress_threads R HR).
Qed.

Lemma advance_write self v : keeps R (write self v).
Proof.
  destruct v; try apply advance_raise.
  intros w. apply (progress_output R HR).
Qed.

Lemma advance_echo self arg : keeps R (echo self arg).
Proof.
  unfold echo. apply advance_bind; [apply advance_write | intros _; apply advance_ret].
Qed.

Lemma advance_handle_output self s : keeps R (handle_output E self s).
Proof.
  unfold handle_output.
  apply advance_bind; [apply advance_write | intros _; apply advance_ret].
Qed.

Lemma advance_send_event self name params : keeps R (send_event E self name params).
Proof. unfold send_event. apply advance_handle_output. Qed.

Lemma advance_read_headers self : keeps R (read_headers self).
Proof.
  intros w. unfold read_headers, bind, get, update.
  destruct (read_headers_from ∅ (input_stream (servers w self))) as [outcome rest] eqn:Hread.
  destruct (read_headers_from_suffix _ _ _ _ Hread) as (consumed & Hc).
  destruct outcome; cbn [snd ret raise];
    apply (progress_input R HR _ consumed); exact Hc.
Qed.

Lemma advance_read_content self n : keeps R (read_content self n).
Proof.
  intros w. unfold read_content, bind, get, update, ret, raise, read.
  destruct ((n <? - maxsize - 1) || (maxsize <? n)); cbn [snd];
    [apply (progress_refl R HR) |].
  destruct (n <? 0); cbn [snd].
  - apply (progress_input R HR _ (input_stream (servers w self))).
    rewrite app_nil_r. reflexivity.
  - apply (progress_input R HR _ (take (Z.to_nat n) (input_stream (servers w self)))).
    rewrite take_drop. reflexivity.
Qed.

Lemma advance_perform_all self actions : keeps R (perform_all E self actions).
Proof.
  induction actions as [|a actions IH]; simpl; [apply advance_ret |].
  apply advance_bind; [| intros _; exact IH].
  destruct a; [apply advance_register_thread | apply advance_send_event].
Qed.

Lemma advance_service_request self handler p :
  keeps R (service_request E self handler p).
Proof.
  unfold service_request. apply advance_bind; [apply advance_get | intros s].
  destruct (handler (connection_service s) p) as [[service actions] outcome].
  apply advance_bind; [intros w; apply (progress_service R HR) | intros _].
  apply advance_bind; [apply advance_perform_all | intros _].
  destruct outcome; [apply advance_ret | apply advance_raise].
Qed.

Lemma advance_call h p : keeps R (call E h p).
Proof.
  destruct h; cbn [call];
    repeat match goal with
           | |- keeps R (match ?x with _ => _ end) => destruct x
           end;
    lazymatch goal with
    | |- keeps R (raise _) => apply advance_raise
    | |- keeps R (service_request _ _ _ _) => apply advance_service_request
    | |- keeps R (entered _ CalledInitialize _) => apply advance_entered_initialize
    | |- keeps R (entered _ CalledShutdown _) => apply advance_entered_shutdown
    | |- keeps R (entered _ CalledExit _) => apply advance_entered_exit
    | |- keeps R (echo _ _) => apply advance_echo
    | |- keeps R (wait _) => apply advance_wait
    | |- keeps R version => apply advance_ret
    | |- keeps R (capabilities _ _ _) => apply advance_ret
    end.
Qed.

Lemma advance_handle_request r : keeps R (handle_request E r).
Proof.
  intros w. unfold handle_request.
  destruct (dispatcher w !! rq_method r) as [h|]; [| apply (progress_refl R HR)].
  pose proof (advance_call h (rq_params r) w) as H.
  destruct (call E h (rq_params r) w) as [[v|e] w1]; exact H.
Qed.

Lemma advance_handle body : keeps R (handle E body).
Proof.
  unfold handle. destruct (parse E body) as [| |r|rs]; try apply advance_ret.
  - apply advance_handle_request.
  - apply advance_bind; [| intros l; apply advance_ret].
    induction rs as [|r rs IH]; simpl; [apply advance_ret |].
    apply advance_bind; [apply advance_handle_request | intros o].
    apply advance_bind; [exact IH | intros l; apply advance_ret].
Qed.

Lemma advance_next_response self : keeps R (next_response E self).
Proof.
  unfold next_response. apply advance_bind; [apply advance_read_headers | intros headers].
  apply advance_bind;
    [destruct (headers !! lit "Content-Length"); [apply advance_ret | apply advance_raise] |].
  intros v. apply advance_bind;
    [destruct (int v); [apply advance_ret | apply advance_raise] |].
  intros n. apply advance_bind; [apply advance_read_content | intros body].
  apply advance_handle.
Qed.

(** The end of a turn, once the frame has been handled. *)
Lemma advance_turn_end self response :
  keeps R (s <- get self ;;
           if should_exit s then ret (Some (if is_shutdown s then 0 else 1))
           else match response with
                | None => ret None
                | Some r => handle_output E self (json E r) ;;; ret None
                end).
Proof.
  apply advance_bind; [apply advance_get | intros s].
  destruct (should_exit s); [apply advance_ret |].
  destruct response; [| apply advance_ret].
  apply advance_bind; [apply advance_handle_output | intros _; apply advance_ret].
Qed.

Lemma advance_loop_body self : keeps R (loop_body E self).
Proof.
  unfold loop_body.
  apply advance_bind; [apply advance_next_response | intros r; apply advance_turn_end].
Qed.

Lemma advance_handle_input turns self w : R w (handle_input E turns self w).2.
Proof.
  revert w. induction turns as [|turns IH]; intros w; simpl.
  - apply (progress_refl R HR).
  - pose proof (advance_loop_body self w) as H.
    destruct (loop_body E self w) as [[[code|]|e] w1]; cbn [snd] in *; try exact H.
    eapply (progress_trans R HR); [exact H | apply IH].
Qed.

End Progresses.

Lemma advances_progress : Progress advances.
Proof.
  constructor; unfold advances, output_extends, input_consumed, threads_kept,
    bindings_kept.
  - intros w. repeat split; intros; reflexivity.
  - intros w1 w2 w3 (O1 & I1 & T1 & B1) (O2 & I2 & T2 & B2).
    split; [| split; [| split]].
    + intros i. etransitivity; [apply O1 | apply O2].
    + intros i. etransitivity; [apply I2 | apply I1].
    + intros i. etransitivity; [apply T1 | apply T2].
    + etransitivity; [apply B1 | apply B2].
  - intros name h w. cbn. repeat split; try (intros; reflexivity).
    rewrite dom_insert_L. apply union_subseteq_r.
  - intros t w. cbn. repeat split; intros; reflexivity.
  - intros self w. cbn [store dispatcher].
    repeat split; try reflexivity; intros i; rewrite servers_store;
      destruct (decide (self = i)) as [->|]; reflexivity.
  - intros self w.
    repeat split; try reflexivity; intros i; rewrite servers_entered_shutdown;
      destruct (decide (self = i)) as [->|]; reflexivity.
  - intros self w.
    repeat split; try reflexivity; intros i; rewrite servers_entered_exit;
      destruct (decide (self = i)) as [->|]; reflexivity.
  - intros self t w. cbn [store dispatcher].
    repeat split; try reflexivity; intros i; rewrite servers_store;
      destruct (decide (self = i)) as [->|]; try reflexivity.
    cbn [threads set_threads]. apply union_subseteq_r.
  - intros self text w. cbn [store dispatcher].
    repeat split; try reflexivity; intros i; rewrite servers_store;
      destruct (decide (self = i)) as [->|]; try reflexivity.
    cbn [output_stream set_output_stream]. apply prefix_app_r. reflexivity.
  - intros self consumed rest w Hin. cbn [store dispatcher].
    repeat split; try reflexivity; intros i; rewrite servers_store;
      destruct (decide (self = i)) as [->|]; try reflexivity.
    cbn [input_stream set_input_stream]. rewrite Hin. apply suffix_app_r. reflexivity.
  - intros self c w. cbn [store dispatcher].
    repeat split; try reflexivity; intros i; rewrite servers_store;
      destruct (decide (self = i)) as [->|]; reflexivity.
Qed.

Lemma advances_handle_input E turns self w :
  advances w (handle_input E turns self w).2.
Proof. apply advance_handle_input, advances_progress. Qed.

Lemma advances_call E h p w : advances w (call E h p w).2.
Proof. apply advance_call, advances_progress. Qed.

(** X5. Output is append-only: whatever a handler does when it is called,
    and however many turns the server loop takes, the text already written
    to the output stream of any server is still there, unchanged, at the
    head of that stream. *)
Theorem output_is_append_only (E : Env) (turns self : nat) (h : Handler)
    (p : Params) (w : World) :
  output_extends w (call E h p w).2
  /\ output_extends w (handle_input E turns self w).2.
Proof. split; [apply advances_call | apply advances_handle_input]. Qed.

(** X6. Input is only consumed: after a call of a handler or any number of
    turns of the loop, what is left of the input stream of any server is an
    end of what was left before; nothing is put back or read twice. *)
Theorem input_is_only_consumed (E : Env) (turns self : nat) (h : Handler)
    (p : Params) (w : World) :
  input_consumed w (call E h p w).2
  /\ input_consumed w (handle_input E turns self w).2.
Proof. split; [apply advances_call | apply advances_handle_input]. Qed.

(** X7. A registered thread is never dropped: no handler and no turn of the
    loop removes a handle from the set of threads of any server. *)
Theorem threads_are_never_dropped (E : Env) (turns self : nat) (h : Handler)
    (p : Params) (w : World) :
  threads_kept w (call E h p w).2
  /\ threads_kept w (handle_input E turns self w).2.
Proof. split; [apply advances_call | apply advances_handle_input]. Qed.

(** X8. A method is never unbound: every name bound in the dispatch table
    is still bound after a call of a handler, after the construction of a
    server and after any number of turns of the loop. *)
Theorem bindings_are_never_removed (E : Env) (turns self : nat) (h : Handler)
    (p : Params) (ins outs : str) (w : World) :
  bindings_kept w (call E h p w).2
  /\ bindings_kept w (__init__ E ins outs w).2
  /\ bindings_kept w (handle_input E turns self w).2.
Proof.
  split; [apply advances_call | split; [| apply advances_handle_input]].
  unfold bindings_kept. rewrite init_spec. cbn [snd dispatcher].
  rewrite dom_insert_L. apply union_subseteq_r.
Qed.

(** ** How a run of the loop ends *)

Lemma bind_ok_inv {A B} (m : M A) (k : A -> M B) w b w' :
  bind m k w = (Ok b, w') ->
  exists a w1, m w = (Ok a, w1) /\ k a w1 = (Ok b, w').
Proof.
  unfold bind. destruct (m w) as [[a|e] w1]; [| discriminate].
  intros H. exists a, w1. split; [reflexivity | exact H].
Qed.








Lemma next_response_consumes E self w response w' :
  next_response E self w = (Ok response, w') ->
  (length (input_stream (servers w' self)) < length (input_stream (servers w self)))%nat.
Proof.
  unfold next_response. intros Hrun.
  apply bind_ok_inv in Hrun as (headers & w1 & Hheaders & Hrun).
  apply bind_ok_inv in Hrun as (v & w2 & Hv & Hrun).
  apply bind_ok_inv in Hrun as (n & w3 & Hn & Hrun).
  apply bind_ok_inv in Hrun as (body & w4 & Hbody & Hrun).
  destruct (headers !! lit "Content-Length") as [v'|] eqn:Hlookup; [| discriminate Hv].
  injection Hv as <- <-.
  destruct (int v') as [n'|]; [| discriminate Hn].
  injection Hn as <- <-.
  assert (length (input_stream (servers w1 self))
          < length (input_stream (servers w self)))%nat as Hfirst.
  { revert Hheaders. unfold read_headers, bind, get, update, ret, raise.
    destruct (read_headers_from ∅ (input_stream (servers w self)))
      as [[headers'|e0] rest] eqn:Hread; [| discriminate].
    intros [= -> <-]. rewrite servers_store_eq. cbn [input_stream set_input_stream].
    destruct (read_headers_from_shrinks _ _ _ _ Hread) as [-> | Hlt]; [| exact Hlt].
    rewrite lookup_empty in Hlookup. discriminate. }
  assert (input_consumed w1 w') as Hlater.
  { pose proof (advance_read_content advances advances_progress self n' w1)
      as (_ & H1 & _).
    rewrite Hbody in H1.
    pose proof (advance_handle E advances advances_progress body w4) as (_ & H2 & _).
    rewrite Hrun in H2. intros i. etransitivity; [apply H2 | apply H1]. }
  specialize (Hlater self). apply suffix_length in Hlater. lia.
Qed.

Lemma loop_body_consumes E self w w' :
  loop_body E self w = (Ok None, w') ->
  (length (input_stream (servers w' self)) < length (input_stream (servers w self)))%nat.
Proof.
  unfold loop_body. intros Hrun.
  apply bind_ok_inv in Hrun as (response & w1 & Hnext & Hrun).
  apply next_response_consumes in Hnext.
  pose proof (advance_turn_end E advances advances_progress self response w1)
    as (_ & H & _).
  rewrite Hrun in H. specialize (H self). apply suffix_length in H. cbn [snd] in H. lia.
Qed.

Lemma handle_input_ends E turns : forall self w,
  (length (input_stream (servers w self)) < turns)%nat ->
  (handle_input E turns self w).1 <> Running.
Proof.
  induction turns as [|turns IH]; intros self w Hlen; [lia |].
  simpl. destruct (loop_body E self w) as [[[code|]|e] w1] eqn:Hbody;
    try discriminate.
  apply IH. apply loop_body_consumes in Hbody. lia.
Qed.

(** X9. The server loop ends on every finite input: given one turn more
    than there are characters left to read, and however many beyond,
    [handle_input] has ended with [sys.exit] or with an exception. Every
    turn that goes on to the next has taken at least one character from the
    input stream. *)
Theorem handle_input_terminates (E : Env) (self extra : nat) (w : World) :
  let turns := (S (length (input_stream (servers w self))) + extra)%nat in
  (exists code, (handle_input E turns self w).1 = Exited code)
  \/ (exists e, (handle_input E turns self w).1 = Raised e).
Proof.
  cbv zeta.
  pose proof (handle_input_ends E
                (S (length (input_stream (servers w self))) + extra) self w) as H.
  destruct (handle_input E _ self w).1 as [code|e|]; [eauto | eauto |].
  exfalso. apply H; [lia | reflexivity].
Qed.



(** ** Flags and lifecycle calls *)

(** X11. The flags are set by their methods only. The history of a server
    is kept by the dispatching layer, which notes [shutdown] and [exit]
    where it enters them; the methods assign the flags and nothing else
    does. From a state in which [is_shutdown] is set exactly on the servers
    on which [shutdown] has been entered, and [should_exit] exactly on those
    on which [exit] has been entered, every call of a handler and every
    number of turns of the loop leads to such a state; the state of a new
    process, and the state after a construction, are such states. *)
Theorem flags_tell_the_calls (E : Env) (turns self : nat) (h : Handler)
    (p : Params) (ins outs : str) (w : World) :
  lifecycle_recorded w ->
  lifecycle_recorded (call E h p w).2
  /\ lifecycle_recorded (__init__ E ins outs w).2
  /\ lifecycle_recorded (handle_input E turns self w).2.
Proof.
  intros H. split; [| split].
  - exact (keeps_call E recorded_after recorded_after_closed h p w H).
  - apply lifecycle_recorded_init, H.
  - exact (keeps_handle_input E recorded_after recorded_after_closed turns self w H).
Qed.

(** From the state of a new process. *)
Lemma flags_tell_the_calls_witness :
  lifecycle_recorded boot
  /\ lifecycle_recorded (call posix (H_exit 0) (Positional []) boot).2
  /\ lifecycle_recorded (__init__ posix [] [] boot).2
  /\ lifecycle_recorded (handle_input posix 3 0 boot).2.
Proof.
  split; [exact lifecycle_recorded_boot |].
  exact (flags_tell_the_calls posix 3 0 (H_exit 0) (Positional []) [] [] boot
           lifecycle_recorded_boot).
Defined.

(** ** A bound method and its receiver *)

Section Receiver.

Context (E : Env) (a : nat).

Lemma untouched_refl w : others_untouched a w w.
Proof. intros i _. reflexivity. Qed.

Lemma untouched_trans w1 w2 w3 :
  others_untouched a w1 w2 -> others_untouched a w2 w3 -> others_untouched a w1 w3.
Proof. intros H12 H23 i Hi. rewrite (H23 i Hi). apply H12, Hi. Qed.

Lemma untouched_bind {A B} (m : M A) (k : A -> M B) :
  keeps (others_untouched a) m -> (forall x, keeps (others_untouched a) (k x)) ->
  keeps (others_untouched a) (bind m k).
Proof.
  intros Hm Hk w. unfold bind. specialize (Hm w).
  destruct (m w) as [[x|e] w1]; cbn [snd] in *; [| exact Hm].
  eapply untouched_trans; [exact Hm | apply Hk].
Qed.

Lemma untouched_ret {A} (x : A) : keeps (others_untouched a) (ret x).
Proof. intros w. apply untouched_refl. Qed.

Lemma untouched_raise {A} (e : exn) : keeps (others_untouched a) (@raise A e).
Proof. intros w. apply untouched_refl. Qed.

Lemma untouched_update f : keeps (others_untouched a) (update a f).
Proof.
  intros w i Hi. unfold update. cbn [snd]. rewrite servers_store.
  destruct (decide (a = i)); [congruence | reflexivity].
Qed.

Lemma untouched_setitem name h : keeps (others_untouched a) (setitem name h).
Proof. intros w i _. reflexivity. Qed.

Lemma untouched_initialize x1 x2 x3 x4 x5 x6 :
  keeps (others_untouched a) (initialize E a x1 x2 x3 x4 x5 x6).
Proof.
  unfold initialize, initialize_dispatcher.
  apply untouched_bind; [| intros _; apply untouched_ret].
  repeat (apply untouched_bind; [apply untouched_setitem | intros _]).
  apply untouched_setitem.
Qed.

Lemma untouched_entered c body :
  keeps (others_untouched a) body -> keeps (others_untouched a) (entered a c body).
Proof.
  intros Hbody. unfold entered.
  apply untouched_bind; [apply untouched_update | intros _; exact Hbody].
Qed.

Lemma untouched_wait : keeps (others_untouched a) (wait a).
Proof. intros w. rewrite wait_spec. intros i _. reflexivity. Qed.

Lemma untouched_write v : keeps (others_untouched a) (write a v).
Proof. destruct v; try apply untouched_raise. apply untouched_update. Qed.

Lemma untouched_handle_output s : keeps (others_untouched a) (handle_output E a s).
Proof.
  unfold handle_output.
  apply untouched_bind; [apply untouched_write | intros _; apply untouched_ret].
Qed.

Lemma untouched_perform_all actions :
  keeps (others_untouched a) (perform_all E a actions).
Proof.
  induction actions as [|x actions IH]; simpl; [apply untouched_ret |].
  apply untouched_bind; [| intros _; exact IH].
  destruct x; cbn [perform].
  - unfold register_thread.
    apply untouched_bind; [apply untouched_update | intros _; apply untouched_ret].
  - unfold send_event. apply untouched_handle_output.
Qed.

Lemma untouched_service_request handler p :
  keeps (others_untouched a) (service_request E a handler p).
Proof.
  unfold service_request. apply untouched_bind; [intros w; apply untouched_refl | intros s].
  destruct (handler (connection_service s) p) as [[service actions] outcome].
  apply untouched_bind; [apply untouched_update | intros _].
  apply untouched_bind; [apply untouched_perform_all | intros _].
  destruct outcome; [apply untouched_ret | apply untouched_raise].
Qed.

End Receiver.

Lemma call_unbound_pure E h p w :
  receiver h = None -> (call E h p w).2 = w.
Proof.
  destruct h; try discriminate; intros _; cbn [call];
    repeat match goal with
           | |- (match ?x with _ => _ end ?w0).2 = _ => destruct x
           end; reflexivity.
Qed.

Lemma call_receiver E h p a :
  receiver h = Some a -> keeps (others_untouched a) (call E h p).
Proof.
  destruct h; try discriminate; intros [= ->]; cbn [call];
    repeat match goal with
           | |- keeps _ (match ?x with _ => _ end) => destruct x
           end;
    lazymatch goal with
    | |- keeps _ (raise _) => apply untouched_raise
    | |- keeps _ (service_request _ _ _ _) => apply untouched_service_request
    | |- keeps _ (entered _ CalledInitialize _) =>
        apply untouched_entered, untouched_initialize
    | |- keeps _ (entered _ CalledShutdown _) =>
        apply untouched_entered; unfold shutdown;
        (apply untouched_bind; [apply untouched_update | intros _; apply untouched_ret])
    | |- keeps _ (entered _ CalledExit _) =>
        apply untouched_entered; unfold exit;
        (apply untouched_bind; [apply untouched_update | intros _; apply untouched_ret])
    | |- keeps _ (echo _ _) =>
        unfold echo;
        (apply untouched_bind; [apply untouched_write | intros _; apply untouched_ret])
    | |- keeps _ (wait _) => apply untouched_wait
    end.
Qed.

Lemma call_dispatcher E h p w :
  match h with
  | H_initialize _ => True
  | _ => dispatcher (call E h p w).2 = dispatcher w
  end.
Proof.
  destruct h; try exact I; cbn [call].
  - unfold service_request, bind, get, update.
    destruct (handle_connect_request E _ p) as [[service actions] outcome].
    cbn [snd]. set (w1 := store _ _ w).
    change (dispatcher w) with (dispatcher w1). generalize w1. clear w1.
    induction actions as [|x actions IH]; intros w1; simpl.
    + destruct outcome; reflexivity.
    + unfold bind at 1. destruct x; cbn [perform];
        [rewrite register_thread_spec | unfold send_event; rewrite handle_output_spec];
        exact (IH _).
  - unfold service_request, bind, get, update.
    destruct (handle_disconnect_request E _ p) as [[service actions] outcome].
    cbn [snd]. set (w1 := store _ _ w).
    change (dispatcher w) with (dispatcher w1). generalize w1. clear w1.
    induction actions as [|x actions IH]; intros w1; simpl.
    + destruct outcome; reflexivity.
    + unfold bind at 1. destruct x; cbn [perform];
        [rewrite register_thread_spec | unfold send_event; rewrite handle_output_spec];
        exact (IH _).
  - destruct (bind_params [] 0 p); reflexivity.
  - destruct (bind_params [] 0 p); reflexivity.
  - destruct (bind_params [lit "arg"] 1 p) as [[|x [|y l]]|]; try reflexivity.
    destruct x; reflexivity.
  - destruct (bind_params [] 0 p); reflexivity.
  - destruct (bind_params [lit "hostName"; lit "hostVersion"] 2 p)
      as [[|x [|y [|z l]]]|]; reflexivity.
  - destruct (bind_params [] 0 p); [| reflexivity]. rewrite wait_spec. reflexivity.
Qed.

(** X12. A bound method changes no server other than the one it is bound
    to, whichever server's loop calls it; [version] and [capabilities]
    change nothing at all; and no handler other than [initialize] changes
    the dispatch table. So a request that resolves to the [exit] of another
    server does not set the exit flag of the server that read it. *)
Theorem handler_touches_only_its_receiver (E : Env) (h : Handler) (p : Params)
    (w : World) :
  match receiver h with
  | Some a => others_untouched a w (call E h p w).2
  | None => (call E h p w).2 = w
  end
  /\ match h with
     | H_initialize _ => True
     | _ => dispatcher (call E h p w).2 = dispatcher w
     end.
Proof.
  split; [| apply call_dispatcher].
  destruct (receiver h) as [a|] eqn:Hr.
  - apply (call_receiver E h p a Hr).
  - apply call_unbound_pure, Hr.
Qed.

(** ** Handlers called through the table *)

Lemma bind_params_named_one name v :
  bind_params [name] 1 (Named {[ name := v ]}) = Some [v].
Proof.
  unfold bind_params. rewrite dom_singleton_L, elements_singleton.
  cbn [forallb take fmap list_fmap].
  rewrite !bool_decide_eq_true_2; [| rewrite lookup_singleton_eq; eauto | set_solver].
  rewrite lookup_singleton_eq. reflexivity.
Qed.

(** X13. [echo] writes its argument as it is, with no header and no
    envelope, to the output stream of its server, whether the argument
    comes by position or by the name [arg]; an argument that is not a string
    is refused by the stream with [TypeError], as is a call with no
    argument or with two, and then nothing is written. *)
Theorem echo_writes_verbatim (E : Env) (self : nat) (text : str) (w : World) :
  let written :=
    store self (set_output_stream (output_stream (servers w self) ++ text)
                                  (servers w self)) w in
  call E (H_echo self) (Positional [VStr text]) w = (Ok VNone, written)
  /\ call E (H_echo self) (Named {[ lit "arg" := VStr text ]}) w = (Ok VNone, written)
  /\ (forall v, (forall s, v <> VStr s) ->
        call E (H_echo self) (Positional [v]) w = (Raise TypeError, w))
  /\ call E (H_echo self) (Positional []) w = (Raise TypeError, w)
  /\ (forall v v', call E (H_echo self) (Positional [v; v']) w = (Raise TypeError, w)).
Proof.
  cbv zeta. repeat match goal with |- _ /\ _ => split end.
  - reflexivity.
  - cbn [call]. rewrite bind_params_named_one. reflexivity.
  - intros v Hv. destruct v; try reflexivity. destruct (Hv s). reflexivity.
  - reflexivity.
  - reflexivity.
Qed.

Lemma send_event_spec E self event_name event_params :
  send_event E self event_name event_params
  = handle_output E self (event_text E event_name event_params).
Proof. reflexivity. Qed.

(** X14. An event travels in the same frame as a response: [send_event]
    never fails, and what it appends to the output stream, read back by the
    frame decoder, gives a [Content-Length] that [int] reads as the length
    of the event text, and then that text, which opens with the JSON-RPC
    version tag and the name of the event. [int] reads the length for as
    long as it has no more digits than [int] converts, and reading that many
    characters gives the text back and leaves nothing, for every length a
    stream accepts, which is every length up to [sys.maxsize]. *)
Theorem send_event_frames_the_event (E : Env) (self : nat) (event_name : str)
    (event_params : value) (w : World) :
  let body := event_text E event_name event_params in
  let after := (send_event E self event_name event_params w).2 in
  (send_event E self event_name event_params w).1 = Ok VNone
  /\ (exists written,
        output_stream (servers after self) = output_stream (servers w self) ++ written
        /\ read_headers_from ∅ written
           = (Ok {[ lit "Content-Length" := format_nat (length body) ]}, body)
        /\ int (format_nat (length body))
           = (if (length (format_nat (length body)) <=? max_str_digits)%nat
              then Some (Z.of_nat (length body)) else None)
        /\ read (Z.of_nat (length body)) body
           = if Z.of_nat (length body) <=? maxsize then Some (body, []) else None)
  /\ exists more,
       body = lit "{" ++ quoted (lit "jsonrpc") ++ lit ":" ++ quoted (lit "2.0")
              ++ lit "," ++ quoted (lit "method") ++ lit ":" ++ quoted event_name
              ++ more.
Proof.
  cbv zeta. rewrite send_event_spec, handle_output_spec. cbn [fst snd].
  rewrite servers_store_eq. cbn [output_stream set_output_stream].
  split; [reflexivity | split].
  - exists (full_output E (event_text E event_name event_params)).
    split; [reflexivity | split; [| split]].
    + apply read_headers_full_output.
    + apply int_format_nat.
    + apply read_whole.
  - unfold event_text. eexists. reflexivity.
Qed.

(** X15. [version] and [capabilities] are pure: called through the table
    they leave the whole state as it is; [version] returns the string [0];
    the result of [capabilities] does not depend on [hostName] or
    [hostVersion], given by position or by name; and a call with the wrong
    number of arguments raises [TypeError]. *)
Theorem version_and_capabilities_are_pure (E : Env) (p : Params)
    (a b a' b' : value) (w w' : World) :
  call E H_version (Positional []) w = (Ok (VStr (lit "0")), w)
  /\ (call E H_version p w).2 = w
  /\ (call E H_capabilities p w).2 = w
  /\ (call E H_capabilities (Positional [a; b]) w).1
     = (call E H_capabilities (Positional [a'; b']) w').1
  /\ (exists r, call E H_capabilities (Positional [a; b]) w = (Ok r, w))
  /\ call E H_version (Positional [a]) w = (Raise TypeError, w)
  /\ call E H_capabilities (Positional [a]) w = (Raise TypeError, w)
  /\ call E H_capabilities (Positional []) w = (Raise TypeError, w).
Proof.
  repeat match goal with |- _ /\ _ => split end; try reflexivity.
  - apply call_unbound_pure. reflexivity.
  - apply call_unbound_pure. reflexivity.
  - eexists. reflexivity.
Qed.

Lemma domain_method_unbound E ins outs w m :
  dom (dispatcher w) ⊆ {[ lit "initialize" ]} ->
  m ∈ domain_methods ->
  dispatcher (__init__ E ins outs w).2 !! m = None.
Proof.
  intros Hdom Hm. rewrite init_spec. cbn [snd dispatcher].
  pose proof (domain_methods_not_initialize m Hm) as Hne.
  rewrite lookup_insert_ne by congruence.
  apply not_elem_of_dom. intros Hin. apply Hdom in Hin.
  apply elem_of_singleton in Hin. contradiction.
Qed.

(** X16. Before the handshake nothing but [initialize] has any effect: on
    a server constructed while the table binds no other name, a request for
    a domain method, [exit] and [shutdown] included, is answered "method
    not found" (not answered at all when it is a notification) and leaves
    the whole state as it was, so the loop goes on. *)
Theorem request_before_handshake_is_refused (E : Env) (ins outs : str)
    (r : Request) (w : World) :
  dom (dispatcher w) ⊆ {[ lit "initialize" ]} ->
  rq_method r ∈ domain_methods ->
  let w1 := (__init__ E ins outs w).2 in
  handle_request E r w1 = (Ok (respond r (inr MethodNotFound)), w1)
  /\ respond r (inr MethodNotFound)
     = match rq_id r with
       | Some id => Some (Error (Some id) MethodNotFound)
       | None => None
       end.
Proof.
  intros Hdom Hm. cbv zeta. split; [| reflexivity].
  unfold handle_request. rewrite (domain_method_unbound E ins outs w _ Hdom Hm).
  reflexivity.
Qed.

(** An [exit] sent to the first server of a process before [initialize]. *)
Lemma request_before_handshake_is_refused_witness :
  let r := mkRequest (Some (VInt 1)) (lit "exit") (Positional []) in
  let w1 := (__init__ posix [] [] boot).2 in
  dom (dispatcher boot) ⊆ ({[ lit "initialize" ]} : gset str)
  /\ rq_method r ∈ domain_methods
  /\ handle_request posix r w1 = (Ok (respond r (inr MethodNotFound)), w1)
  /\ respond r (inr MethodNotFound)
     = match rq_id r with
       | Some id => Some (Error (Some id) MethodNotFound)
       | None => None
       end.
Proof.
  cbv zeta.
  assert (dom (dispatcher boot) ⊆ ({[ lit "initialize" ]} : gset str)) as H1.
  { cbn [dispatcher boot]. rewrite dom_empty_L. apply empty_subseteq. }
  assert (rq_method (mkRequest (Some (VInt 1)) (lit "exit") (Positional []))
          ∈ domain_methods) as H2.
  { unfold domain_methods. cbn [rq_method]. rewrite !elem_of_cons. tauto. }
  split; [exact H1 | split; [exact H2 |]].
  exact (request_before_handshake_is_refused posix [] []
           (mkRequest (Some (VInt 1)) (lit "exit") (Positional [])) boot H1 H2).
Defined.

(** X17. The table is shared, and the server constructed last owns
    [initialize]: after a construction, an [initialize] request handled in
    the loop of any server binds every domain method that has a receiver to
    the new server, and changes no other server. *)
Theorem initialize_binds_to_the_latest_server (E : Env) (ins outs : str)
    (id : option value) (w : World) :
  let self := next_id w in
  let w1 := (__init__ E ins outs w).2 in
  let r := mkRequest id (lit "initialize") (Positional []) in
  let w2 := (handle_request E r w1).2 in
  dispatcher w1 !! lit "initialize" = Some (H_initialize self)
  /\ (forall m h, m ∈ domain_methods -> dispatcher w2 !! m = Some h ->
        receiver h = Some self \/ receiver h = None)
  /\ (forall m, m ∈ domain_methods -> is_Some (dispatcher w2 !! m))
  /\ others_untouched self w1 w2
  /\ history (servers w2 self) = [CalledInitialize].
Proof.
  cbv zeta. unfold handle_request. rewrite init_spec. cbn [snd dispatcher rq_method].
  rewrite lookup_insert_eq. cbn [call rq_params bind_params length Nat.leb andb
    app replicate Nat.sub].
  rewrite entered_spec, initialize_spec. cbn [snd dispatcher servers next_id store].
  repeat match goal with |- _ /\ _ => split end.
  - reflexivity.
  - intros m h Hm. unfold domain_methods in Hm. revert Hm.
    rewrite !elem_of_cons, elem_of_nil. unfold bind_domain.
    intros Hm. repeat (destruct Hm as [-> | Hm];
      [simplify_map_eq; intros [= <-]; cbn; tauto |]).
    destruct Hm.
  - intros m Hm. apply domain_methods_bound, Hm.
  - intros i Hi. cbn [servers].
    rewrite fn_lookup_insert_ne by (intros Heq; apply Hi; symmetry; exact Heq).
    reflexivity.
  - cbn [servers]. rewrite !fn_lookup_insert. reflexivity.
Qed.

(** ** Responses *)

Lemma loop_body_answers E self w r w1 :
  next_response E self w = (Ok (Some r), w1) ->
  should_exit (servers w1 self) = false ->
  loop_body E self w = (Ok None, (handle_output E self (json E r) w1).2).
Proof.
  intros Hnext Hexit. unfold loop_body, bind at 1. rewrite Hnext.
  unfold bind at 1, get. rewrite Hexit. reflexivity.
Qed.

Lemma next_response_output E self w response w1 :
  next_response E self w = (Ok response, w1) ->
  exists written,
    output_stream (servers w1 self) = output_stream (servers w self) ++ written.
Proof.
  intros Hnext.
  pose proof (advance_next_response E advances advances_progress self w) as (H & _).
  rewrite Hnext in H. exact (H self).
Qed.

(** X18. Responses leave in the order of their requests: when two turns in
    a row each produce a response and find the exit flag clear, the output
    stream of the server is, after them, what it was, then what the first
    handler wrote, the frame of the first response, what the second handler
    wrote, and the frame of the second response. *)
Theorem responses_in_request_order (E : Env) (self : nat) (w w1 w2 : World)
    (r1 r2 : Response) :
  next_response E self w = (Ok (Some r1), w1) ->
  should_exit (servers w1 self) = false ->
  next_response E self (handle_output E self (json E r1) w1).2 = (Ok (Some r2), w2) ->
  should_exit (servers w2 self) = false ->
  exists during1 during2,
    handle_input E 2 self w = (Running, (handle_output E self (json E r2) w2).2)
    /\ output_stream (servers (handle_input E 2 self w).2 self)
       = output_stream (servers w self)
         ++ during1 ++ full_output E (json E r1)
         ++ during2 ++ full_output E (json E r2).
Proof.
  intros N1 X1 N2 X2.
  destruct (next_response_output E self _ _ _ N1) as (during1 & O1).
  destruct (next_response_output E self _ _ _ N2) as (during2 & O2).
  exists during1, during2.
  assert (handle_input E 2 self w
          = (Running, (handle_output E self (json E r2) w2).2)) as Hrun.
  { simpl. rewrite (loop_body_answers E self w r1 w1 N1 X1).
    rewrite (loop_body_answers E self _ r2 w2 N2 X2). reflexivity. }
  split; [exact Hrun |].
  rewrite Hrun. cbn [snd]. rewrite handle_output_spec. cbn [snd].
  rewrite servers_store_eq. cbn [output_stream set_output_stream].
  rewrite O2, handle_output_spec. cbn [snd].
  rewrite servers_store_eq. cbn [output_stream set_output_stream].
  rewrite O1, <- !app_assoc. reflexivity.
Qed.

(** [initialize], then [version], sent to the first server of a process. *)
Lemma responses_in_request_order_witness :
  let w := (__init__ posix
              (client_frame (request_text (lit "initialize"))
               ++ client_frame (request_text (lit "version"))) [] boot).2 in
  let w1 := (next_response posix 0 w).2 in
  let r1 := Result (VInt 1)
              (VNew (lit "InitializeResult")
                 [VNew (lit "ServerCapabilities") []
                    [(lit "textDocumentSync",
                      VAttr (lit "TextDocumentSyncKind") (lit "INCREMENTAL"));
                     (lit "definitionProvider", VBool false);
                     (lit "referencesProvider", VBool false);
                     (lit "documentFormattingProvider", VBool false);
                     (lit "documentRangeFormattingProvider", VBool false);
                     (lit "documentHighlightProvider", VBool false);
                     (lit "hoverProvider", VBool false);
                     (lit "completionProvider", VNone)]] []) in
  let r2 := Result (VInt 1) (VStr (lit "0")) in
  let w2 := (next_response posix 0 (handle_output posix 0 (json posix r1) w1).2).2 in
  next_response posix 0 w = (Ok (Some r1), w1)
  /\ should_exit (servers w1 0%nat) = false
  /\ next_response posix 0 (handle_output posix 0 (json posix r1) w1).2
     = (Ok (Some r2), w2)
  /\ should_exit (servers w2 0%nat) = false
  /\ exists during1 during2,
       handle_input posix 2 0 w = (Running, (handle_output posix 0 (json posix r2) w2).2)
       /\ output_stream (servers (handle_input posix 2 0 w).2 0%nat)
          = output_stream (servers w 0%nat)
            ++ during1 ++ full_output posix (json posix r1)
            ++ during2 ++ full_output posix (json posix r2).
Proof.
  cbv zeta.
  set (w := (__init__ posix _ [] boot).2).
  set (r1 := Result (VInt 1) (VNew (lit "InitializeResult") _ [])).
  set (w1 := (next_response posix 0 w).2).
  set (w2 := (next_response posix 0 (handle_output posix 0 (json posix r1) w1).2).2).
  assert (next_response posix 0 w = (Ok (Some r1), w1)) as H1
    by (vm_compute; reflexivity).
  assert (should_exit (servers w1 0%nat) = false) as H2 by (vm_compute; reflexivity).
  assert (next_response posix 0 (handle_output posix 0 (json posix r1) w1).2
          = (Ok (Some (Result (VInt 1) (VStr (lit "0")))), w2)) as H3
    by (vm_compute; reflexivity).
  assert (should_exit (servers w2 0%nat) = false) as H4 by (vm_compute; reflexivity).
  split; [exact H1 | split; [exact H2 | split; [exact H3 | split; [exact H4 |]]]].
  exact (responses_in_request_order posix 0 w w1 w2 r1 _ H1 H2 H3 H4).
Defined.

(** X19. [wait] joins each tracked thread exactly once, joins no other
    thread, and changes nothing else: the servers and the dispatch table are
    as they were. *)
Theorem wait_joins_each_thread_once (self : nat) (w : World) :
  exists joins,
    joined (wait self w).2 = joined w ++ joins
    /\ NoDup joins
    /\ (forall t, t ∈ joins <-> t ∈ threads (servers w self))
    /\ servers (wait self w).2 = servers w
    /\ dispatcher (wait self w).2 = dispatcher w.
Proof.
  rewrite wait_spec. cbn [snd joined servers dispatcher].
  exists (elements (threads (servers w self))).
  split; [reflexivity | split; [apply NoDup_elements | split; [| split; reflexivity]]].
  intros t. apply elem_of_elements.
Qed.
